(** * Three Clues: the animal guessing game

    A shallow embedding of the game logic of [guess-animal-gradio.py]:
    the dataset helpers ([safe_str], [pick_round_row], [make_options]),
    the clue composer ([build_composite_clue], [next_clue_text]), the
    scoring table ([points_for_clues_used]) and the four event handlers
    ([start_round], [give_hint], [submit_guess], [give_up]).

    Modelling choices.
    - A Python [str] is a [string]; [str.lower] and [str.strip] are
      modelled on the ASCII range (letters A-Z, the ASCII white space
      characters), other characters are left alone.
    - A spreadsheet cell is a [cell]: [None], [NaN], a string or an
      integer.  Floating point cells other than [NaN] are not modelled.
    - A row (the result of [to_dict]) is a [gmap string cell]; a sheet is
      a [DataFrame] with its column names and its rows.
    - The session state is a Python dict with a fixed set of keys; it is
      the record [state] whose fields are [None] when the key is absent.
    - [random] and [DataFrame.sample] draw from an explicit random source
      [rng], threaded through the handlers that use it.
    - Exceptions ([KeyError], [ValueError]) are values of [result].
    - Of what a handler returns, the chat, the state and the widget
      visibility updates are kept; the score line ([build_score_text])
      and the image markup ([generate_image_html]) are functions of
      the state and the row alone and are left out. *)

From stdpp Require Import base option list gmap strings pretty.
From Stdlib Require Import ZArith Lia.

Local Open Scope string_scope.
Local Open Scope list_scope.
Local Open Scope Z_scope.

(** ** Exceptions *)

Inductive exn := KeyError | ValueError.

Inductive result (A : Type) : Type :=
| Ok (a : A)
| Raise (e : exn).
Arguments Ok {A} a.
Arguments Raise {A} e.

#[global] Instance result_ret : MRet result := fun A a => Ok a.

#[global] Instance result_bind : MBind result := fun A B k r =>
  match r with
  | Ok a => k a
  | Raise e => Raise e
  end.

(** ** Strings: [str.lower] and [str.strip] *)

Module Str.

Definition is_upper (c : Ascii.ascii) : bool :=
  let n := Ascii.nat_of_ascii c in
  (Nat.leb 65 n && Nat.leb n 90)%bool.

Definition lower_char (c : Ascii.ascii) : Ascii.ascii :=
  if is_upper c then Ascii.ascii_of_nat (Ascii.nat_of_ascii c + 32) else c.

(** White space in the sense of [str.isspace], ASCII range:
    tab, line feed, vertical tab, form feed, carriage return,
    the separators 28-31 and the space. *)
Definition is_space (c : Ascii.ascii) : bool :=
  let n := Ascii.nat_of_ascii c in
  ((Nat.leb 9 n && Nat.leb n 13) || (Nat.leb 28 n && Nat.leb n 32))%bool.

Fixpoint lower (s : string) : string :=
  match s with
  | EmptyString => EmptyString
  | String c s' => String (lower_char c) (lower s')
  end.

Fixpoint lstrip (s : string) : string :=
  match s with
  | EmptyString => EmptyString
  | String c s' => if is_space c then lstrip s' else s
  end.

(** [rstrip] walks the string once: a character is kept unless it is
    white space and everything after it was stripped. *)
Fixpoint rstrip (s : string) : string :=
  match s with
  | EmptyString => EmptyString
  | String c s' =>
      match rstrip s' with
      | EmptyString => if is_space c then EmptyString else String c EmptyString
      | r => String c r
      end
  end.

Definition strip (s : string) : string := rstrip (lstrip s).

Fixpoint all_space (s : string) : bool :=
  match s with
  | EmptyString => true
  | String c s' => (is_space c && all_space s')%bool
  end.

(** Python truthiness of a [str]. *)
Definition nonempty (s : string) : bool :=
  match s with
  | EmptyString => false
  | String _ _ => true
  end.

Definition nl : string := String (Ascii.ascii_of_nat 10) EmptyString.

End Str.

(** ** Cells, rows and sheets *)

Inductive cell :=
| VNone
| VNaN
| VStr (s : string)
| VInt (z : Z).

(** [pd.isna] on a scalar. *)
Definition isna (x : cell) : bool :=
  match x with
  | VNone | VNaN => true
  | VStr _ | VInt _ => false
  end.

(** [str(x)] for a cell that is not missing. *)
Definition py_str (x : cell) : string :=
  match x with
  | VNone => "None"
  | VNaN => "nan"
  | VStr s => s
  | VInt z => pretty z
  end.

Definition safe_str (x : cell) : string :=
  match x with
  | VNone => ""
  | _ => if isna x then "" else Str.strip (py_str x)
  end.

(** A row is a Python dict from column name to cell. *)
Abbreviation Row := (gmap string cell).

(** [row.get(key, default)] *)
Definition row_get (row : Row) (key : string) (dflt : cell) : cell :=
  default dflt (row !! key).

(** A sheet: its column labels and its records.  A record that lacks a
    column holds a missing value there, as an empty spreadsheet cell
    does. *)
Record DataFrame := mkDataFrame {
  columns : list string;
  records : list Row
}.

Definition cell_at (r : Row) (col : string) : cell := default VNaN (r !! col).

(** [df[col].tolist()]; an unknown column label raises [KeyError]. *)
Definition df_column (df : DataFrame) (col : string) : result (list cell) :=
  if decide (col ∈ columns df)
  then Ok ((fun r => cell_at r col) <$> records df)
  else Raise KeyError.

(** [Series.dropna()] *)
Definition series_dropna (l : list cell) : list cell :=
  filter (fun c => isna c = false) l.

(** [df.dropna(subset=[col])] *)
Definition df_dropna (df : DataFrame) (col : string) : result DataFrame :=
  if decide (col ∈ columns df)
  then Ok (mkDataFrame (columns df)
             (filter (fun r => isna (cell_at r col) = false) (records df)))
  else Raise KeyError.

(** [Series.to_dict()] of a record: one key per column of the sheet. *)
Definition to_dict (df : DataFrame) (r : Row) : Row :=
  list_to_map ((fun c => (c, cell_at r c)) <$> columns df).

(** ** The random source

    The generator is an infinite sequence of raw draws and a cursor;
    [randbelow n] consumes one draw and reduces it below [n].  Every
    behaviour of the real generator is the behaviour of some [rng]. *)

Record rng := mkRng {
  draws : nat -> nat;
  cursor : nat
}.

Definition randbelow (n : nat) (g : rng) : nat * rng :=
  ((draws g (cursor g) `mod` n)%nat, mkRng (draws g) (S (cursor g))).

(** Selection without replacement: [k] times, draw a position of the
    remaining pool and move the element there to the result. *)
Fixpoint draw_many {A} (k : nat) (pool : list A) (g : rng) : list A * rng :=
  match k with
  | O => ([], g)
  | S k' =>
      let '(j, g1) := randbelow (length pool) g in
      match pool !! j with
      | Some x =>
          let '(r, g2) := draw_many k' (delete j pool) g1 in (x :: r, g2)
      | None => ([], g1)
      end
  end.

(** [random.sample(population, k)]: [k] elements at [k] different
    positions; [ValueError] when [k] is negative or exceeds the
    population. *)
Definition random_sample {A} (population : list A) (k : Z) (g : rng)
  : result (list A * rng) :=
  if decide (0 <= k <= Z.of_nat (length population))
  then Ok (draw_many (Z.to_nat k) population g)
  else Raise ValueError.

(** [random.shuffle(x)]: the elements of [x] in a drawn order. *)
Definition random_shuffle {A} (x : list A) (g : rng) : list A * rng :=
  draw_many (length x) x g.

(** [df.sample(1).iloc[0].to_dict()]; an empty sheet raises
    [ValueError]. *)
Definition df_sample_one (df : DataFrame) (g : rng) : result (Row * rng) :=
  let '(j, g1) := randbelow (length (records df)) g in
  match records df !! j with
  | Some r => Ok (to_dict df r, g1)
  | None => Raise ValueError
  end.

(** ** Dataset configuration *)

Definition IMAGE_FIELD : string := "Example Image".

Definition ANSWER_FIELD : gmap string string :=
  {[ "Dogs" := "Breed"; "Cats" := "Breed"; "Horses" := "Breed";
     "Dinosaurs" := "Common Name" ]}.

Definition MAX_CLUES : Z := 3.

(** [d[key]] on a dict *)
Definition dict_item {V} (d : gmap string V) (key : string) : result V :=
  match d !! key with
  | Some v => Ok v
  | None => Raise KeyError
  end.

(** [s1.lower() != s2.lower()] is how the game tells two names apart. *)
Definition same_name (s1 s2 : string) : Prop := Str.lower s1 = Str.lower s2.

#[global] Instance same_name_dec s1 s2 : Decision (same_name s1 s2).
Proof. unfold same_name. apply _. Defined.

(** ** Session state and chat *)

Record message := as_msg {
  role : string;
  content : string
}.

(** The state dict.  A field is [None] when its key is absent. *)
Record state := mkState {
  category : option string;
  row : option Row;
  answer : option string;
  options : option (list string);
  clue_index : option Z;
  round_over : option bool;
  score : option Z;
  streak : option Z;
  img_url : option (option string)
}.

(** [{}] *)
Definition empty_state : state :=
  mkState None None None None None None None None None.

(** Truthiness of the dict: it has at least one key. *)
Definition dict_nonempty (st : state) : bool :=
  match st with
  | mkState None None None None None None None None None => false
  | _ => true
  end.

(** [key in state] *)
Definition has_key {A} (field : option A) : bool :=
  match field with
  | Some _ => true
  | None => false
  end.

(** [state[key]] *)
Definition item {A} (field : option A) : result A :=
  match field with
  | Some v => Ok v
  | None => Raise KeyError
  end.

(** [state[key] = v] for the keys the handlers assign. *)
Definition set_clue_index (v : Z) (st : state) : state :=
  mkState (category st) (row st) (answer st) (options st) (Some v)
          (round_over st) (score st) (streak st) (img_url st).

Definition set_round_over (v : bool) (st : state) : state :=
  mkState (category st) (row st) (answer st) (options st) (clue_index st)
          (Some v) (score st) (streak st) (img_url st).

Definition set_score (v : Z) (st : state) : state :=
  mkState (category st) (row st) (answer st) (options st) (clue_index st)
          (round_over st) (Some v) (streak st) (img_url st).

Definition set_streak (v : Z) (st : state) : state :=
  mkState (category st) (row st) (answer st) (options st) (clue_index st)
          (round_over st) (score st) (Some v) (img_url st).

(** [chat or []] *)
Definition or_nil (chat : option (list message)) : list message :=
  default [] chat.

(** What a handler asks of a widget: [gr.update()] leaves it alone,
    [gr.update(visible=b)] shows or hides it. *)
Inductive gr_update :=
| NoUpdate
| Visible (b : bool).

(** The widgets a guess or a give-up may touch: the image, the Hint
    button, the Give up button and the Submit button, in this order. *)
Record widgets := mkWidgets {
  w_image : gr_update;
  w_hint : gr_update;
  w_giveup : gr_update;
  w_submit : gr_update
}.

Definition no_updates : widgets := mkWidgets NoUpdate NoUpdate NoUpdate NoUpdate.

Definition reveal_image : widgets :=
  mkWidgets (Visible true) (Visible false) (Visible false) NoUpdate.

(** [get_example_image]: the image reference of a row, [None] when it
    is missing or blank. *)
Definition get_example_image (r : Row) : option string :=
  let url := safe_str (row_get r IMAGE_FIELD (VStr "")) in
  if Str.nonempty url then Some url else None.

(** ** Composite clue builder *)

Definition clue_unavailable : string := "Clue information unavailable".

Definition build_composite_clue (st : state) (clue_number : Z) : result string :=
  cat ← item (category st);
  r ← item (row st);
  if decide (cat = "Dogs") then
    if decide (clue_number = 1) then
      let country := safe_str (row_get r "Country" (VStr "unknown")) in
      let continent := safe_str (row_get r "Continent" (VStr "unknown")) in
      let creation := safe_str (row_get r "Creation Time" (VStr "unknown time")) in
      let use := safe_str (row_get r "Use" (VStr "various purposes")) in
      Ok ("**Clue 1:** This species was bred in " +:+ country +:+ ", "
          +:+ continent +:+ " during the " +:+ creation
          +:+ " for use(s) like " +:+ use)
    else if decide (clue_number = 2) then
      let color := safe_str (row_get r "Color" (VStr "various colors")) in
      Ok ("**Clue 2:** This species is often found in colors: " +:+ color)
    else if decide (clue_number = 3) then
      let personality :=
        safe_str (row_get r "Personality Traits" (VStr "varied traits")) in
      Ok ("**Clue 3:** Personality traits associated with the species are "
          +:+ personality)
    else Ok clue_unavailable
  else if decide (cat = "Cats") then
    if decide (clue_number = 1) then
      let country := safe_str (row_get r "Country" (VStr "unknown")) in
      let continent := safe_str (row_get r "Continent" (VStr "unknown")) in
      let history := safe_str (row_get r "History" (VStr "unknown history")) in
      Ok ("**Clue 1:** This species was bred in " +:+ country +:+ ", "
          +:+ continent +:+ " and a tidbit of its history: " +:+ history)
    else if decide (clue_number = 2) then
      let color := safe_str (row_get r "Color" (VStr "various colors")) in
      Ok ("**Clue 2:** This species is often found in colors: " +:+ color)
    else if decide (clue_number = 3) then
      let personality :=
        safe_str (row_get r "Personality" (VStr "varied traits")) in
      Ok ("**Clue 3:** Personality traits associated with the species are "
          +:+ personality)
    else Ok clue_unavailable
  else if decide (cat = "Horses") then
    if decide (clue_number = 1) then
      let country := safe_str (row_get r "Country" (VStr "unknown")) in
      let continent := safe_str (row_get r "Continent" (VStr "unknown")) in
      let creation := safe_str (row_get r "Creation" (VStr "unknown time")) in
      let uses := safe_str (row_get r "Uses" (VStr "various uses")) in
      Ok ("**Clue 1:** This species was bred in " +:+ country +:+ ", "
          +:+ continent +:+ " around " +:+ creation
          +:+ ". Current uses include " +:+ uses)
    else if decide (clue_number = 2) then
      let color := safe_str (row_get r "Color" (VStr "various colors")) in
      let weight := safe_str (row_get r "Weight" (VStr "unknown weight")) in
      let height := safe_str (row_get r "Height" (VStr "unknown height")) in
      Ok ("**Clue 2:** This species is often found in color(s): " +:+ color
          +:+ ", and typical weight ranges are " +:+ weight
          +:+ " & height ranges are " +:+ height)
    else if decide (clue_number = 3) then
      let features :=
        safe_str (row_get r "Distinguishing Features" (VStr "varied features")) in
      Ok ("**Clue 3:** Distinguishing features associated with this species are: "
          +:+ features)
    else Ok clue_unavailable
  else if decide (cat = "Dinosaurs") then
    if decide (clue_number = 1) then
      let locations :=
        safe_str (row_get r "Locations Found" (VStr "unknown locations")) in
      let eating := safe_str (row_get r "Eating Habits" (VStr "unknown diet")) in
      Ok ("**Clue 1:** This species was found in " +:+ locations
          +:+ " and is a " +:+ eating)
    else if decide (clue_number = 2) then
      let size := safe_str (row_get r "Rough Size" (VStr "unknown size")) in
      let clade := safe_str (row_get r "Clade" (VStr "unknown clade")) in
      Ok ("**Clue 2:** This species has size of roughly " +:+ size
          +:+ " and in the Clade " +:+ clade)
    else if decide (clue_number = 3) then
      let social :=
        safe_str (row_get r "Social Behavior" (VStr "unknown behavior")) in
      Ok ("**Clue 3:** Social behaviors associated are: " +:+ social)
    else Ok clue_unavailable
  else Ok clue_unavailable.

Definition no_more_clues : string :=
  "No more clues available. You can guess, click **Give up**, or start a **New Round**.".

(** [next_clue_text]: the text to show and the state after the call. *)
Definition next_clue_text (st : state) : result (string * state) :=
  let i := default 0 (clue_index st) in
  if decide (i >= MAX_CLUES) then Ok (no_more_clues, st)
  else
    clue ← build_composite_clue st (i + 1);
    Ok (clue, set_clue_index (i + 1) st).

Definition points_for_clues_used (clues_used : Z) : Z :=
  if decide (clues_used <= 1) then 3
  else if decide (clues_used = 2) then 2
  else 1.

(** ** Game state helpers *)

Definition is_game_active (st : state) : bool :=
  dict_nonempty st && has_key (category st)
  && negb (default false (round_over st)).

(** Python truthiness of a widget value. *)
Definition truthy (x : cell) : bool :=
  match x with
  | VNone => false
  | VNaN => true
  | VStr s => Str.nonempty s
  | VInt z => negb (z =? 0)
  end.

Definition msg_pick_category : string :=
  "Pick a category and click **New Round** first.".

Definition msg_pick_category_start : string :=
  "Pick a category and click **Start / New Round** first.".

Definition msg_round_over : string :=
  "That round is already over. Click **New Round** to play again.".

Definition msg_choose_option : string :=
  "Choose one of the options first, then click **Submit Guess**.".

Definition msg_not_quite : string :=
  "Not quite. Click **Hint** for another clue, or guess again.".

(** The check mark and the dash of the messages, as UTF-8. *)
Definition check_mark : string :=
  String (Ascii.ascii_of_nat 226) (String (Ascii.ascii_of_nat 156) (String (Ascii.ascii_of_nat 133) EmptyString)).

Definition em_dash : string :=
  String (Ascii.ascii_of_nat 226) (String (Ascii.ascii_of_nat 128) (String (Ascii.ascii_of_nat 148) EmptyString)).

(** The guess that the handler compares: both sides through [safe_str]
    and [lower]. *)
Definition guess_matches (selected : cell) (correct : string) : Prop :=
  Str.lower (safe_str selected) = Str.lower (safe_str (VStr correct)).

#[global] Instance guess_matches_dec selected correct :
  Decision (guess_matches selected correct).
Proof. unfold guess_matches. apply _. Defined.

(** ** Event handlers *)

Definition give_hint (chat : option (list message)) (st : state)
  : result (list message * state) :=
  if negb (is_game_active st) then
    let msg :=
      if negb (dict_nonempty st) || negb (has_key (category st))
      then msg_pick_category else msg_round_over in
    Ok (or_nil chat ++ [as_msg "assistant" msg], st)
  else
    '(clue, st1) ← next_clue_text st;
    Ok (or_nil chat ++ [as_msg "assistant" clue], st1).

Definition submit_guess (selected : cell) (chat : option (list message))
  (st : state) : result (list message * state * widgets) :=
  if negb (is_game_active st) then
    let msg :=
      if negb (dict_nonempty st) || negb (has_key (category st))
      then msg_pick_category else msg_round_over in
    Ok (or_nil chat ++ [as_msg "assistant" msg], st, no_updates)
  else if negb (truthy selected) then
    Ok (or_nil chat ++ [as_msg "assistant" msg_choose_option], st, no_updates)
  else
    correct ← item (answer st);
    let chat1 := or_nil chat ++ [as_msg "user" ("My guess: " +:+ py_str selected)] in
    if decide (guess_matches selected correct) then
      let clues_used := Z.max 1 (default 0 (clue_index st)) in
      let pts := points_for_clues_used clues_used in
      let st1 := set_score (default 0 (score st) + pts) st in
      let st2 := set_streak (default 0 (streak st1) + 1) st1 in
      let st3 := set_round_over true st2 in
      let chat2 := chat1 ++
        [as_msg "assistant"
           (check_mark +:+ " Correct! **" +:+ correct +:+ "**" +:+ Str.nl +:+ Str.nl
            +:+ "Points: **+" +:+ pretty pts +:+ "** (you used "
            +:+ pretty clues_used +:+ " clue(s))" +:+ Str.nl +:+ Str.nl
            +:+ "Click **New Round** to play again.")] in
      Ok (chat2, st3, reveal_image)
    else
      let st1 := set_streak 0 st in
      Ok (chat1 ++ [as_msg "assistant" msg_not_quite], st1, no_updates).

(** The handler [give_up] of the source; the name is a reserved tactic
    name here, hence [giveUp]. *)
Definition giveUp (chat : option (list message)) (st : state)
  : result (list message * state * widgets) :=
  if negb (is_game_active st) then
    let msg :=
      if negb (dict_nonempty st) || negb (has_key (category st))
      then msg_pick_category_start else msg_round_over in
    Ok (or_nil chat ++ [as_msg "assistant" msg], st, no_updates)
  else
    let st1 := set_round_over true st in
    let st2 := set_streak 0 st1 in
    correct ← item (answer st2);
    Ok (or_nil chat ++
          [as_msg "assistant"
             ("All good " +:+ em_dash +:+ " the answer was **" +:+ correct
              +:+ "**." +:+ Str.nl +:+ Str.nl
              +:+ "Click **New Round** when you're ready.")],
        st2, reveal_image).

(** The handlers that read the dataset take the loaded sheets, the
    dict [DECKS] from category to sheet, as a parameter. *)
Section Decks.

Variable DECKS : gmap string DataFrame.

Definition pick_round_row (cat : string) (g : rng) : result (Row * rng) :=
  df ← dict_item DECKS cat;
  answer_col ← dict_item ANSWER_FIELD cat;
  df1 ← df_dropna df answer_col;
  df_sample_one df1 g.

(** The names that may serve as distractors for [correct_answer]. *)
Definition candidates_of (cells : list cell) (correct_answer : string) : list string :=
  let candidates := safe_str <$> series_dropna cells in
  filter (fun c => Str.nonempty c ∧ ¬ same_name c correct_answer) candidates.

Definition make_options (cat : string) (correct_answer : string) (n_options : Z)
  (g : rng) : result (list string * rng) :=
  df ← dict_item DECKS cat;
  answer_col ← dict_item ANSWER_FIELD cat;
  cells ← df_column df answer_col;
  let candidates := candidates_of cells correct_answer in
  '(distractors, g1) ←
     random_sample candidates
       (Z.min (n_options - 1) (Z.of_nat (length candidates))) g;
  let opts := correct_answer :: distractors in
  Ok (random_shuffle opts g1).

(** [start_round] returns the new state, the chat with the first clue
    and the choices given to the radio widget. *)
Definition start_round (cat : string) (prior : option state) (g : rng)
  : result (state * list message * list string * rng) :=
  let prev_score := default 0 (prior ≫= score) in
  let prev_streak := default 0 (prior ≫= streak) in
  '(r, g1) ← pick_round_row cat g;
  answer_col ← dict_item ANSWER_FIELD cat;
  let correct := safe_str (row_get r answer_col (VStr "")) in
  '(opts, g2) ← make_options cat correct 4 g1;
  let url := get_example_image r in
  let st := mkState (Some cat) (Some r) (Some correct) (Some opts) (Some 0)
              (Some false) (Some prev_score) (Some prev_streak) (Some url) in
  '(clue, st1) ← next_clue_text st;
  let chat :=
    [as_msg "assistant"
       ("Here's your first clue:" +:+ Str.nl +:+ Str.nl +:+ clue
        +:+ Str.nl +:+ Str.nl)] in
  Ok (st1, chat, opts, g2).

End Decks.

(** ** Play sequences *)

(** What the player may do within a round. *)
Inductive action :=
| Hint
| Guess (selected : cell)
| GiveUp.

(** One click: the handler runs on the current chat and state. *)
Definition step (a : action) (cs : list message * state)
  : result (list message * state) :=
  match a with
  | Hint => give_hint (Some cs.1) cs.2
  | Guess selected =>
      '(chat1, st1, _) ← submit_guess selected (Some cs.1) cs.2; Ok (chat1, st1)
  | GiveUp =>
      '(chat1, st1, _) ← giveUp (Some cs.1) cs.2; Ok (chat1, st1)
  end.

Fixpoint run (acts : list action) (cs : list message * state)
  : result (list message * state) :=
  match acts with
  | [] => Ok cs
  | a :: rest => cs1 ← step a cs; run rest cs1
  end.

(** [n] clicks on Hint in a row. *)
Definition hints (n : nat) (cs : list message * state)
  : result (list message * state) :=
  run (replicate n Hint) cs.

(** The counters as the handlers read them: [state.get(key, default)]. *)
Definition clue_index_of (st : state) : Z := default 0 (clue_index st).
Definition round_over_of (st : state) : bool := default false (round_over st).
Definition score_of (st : state) : Z := default 0 (score st).
Definition streak_of (st : state) : Z := default 0 (streak st).

(** The messages that tell the player there is no round in play. *)
Definition guidance (m : string) : Prop :=
  m = msg_pick_category ∨ m = msg_pick_category_start ∨ m = msg_round_over.

(** The state that [start_round] returns, if it returns. *)
Definition started (r : result (state * list message * list string * rng))
  : option state :=
  match r with
  | Ok (st, _, _, _) => Some st
  | Raise _ => None
  end.

(** A guess is accepted when the handler ends the round and reveals
    the image. *)
Definition accepted (selected : cell) (chat : option (list message))
  (st : state) : Prop :=
  exists chat1 st1,
    submit_guess selected chat st = Ok (chat1, st1, reveal_image)
    ∧ round_over st1 = Some true.

(** A round in play: the keys that [start_round] sets are there and the
    clue counter is within its range. *)
Definition round_ok (st : state) : Prop :=
  is_Some (category st) ∧ is_Some (row st) ∧ is_Some (answer st)
  ∧ 0 <= clue_index_of st <= MAX_CLUES.

(** The distinct names that may serve as distractors: the set of
    [candidates_of], each name once. *)
Definition distinct_candidates (cells : list cell) (correct_answer : string)
  : list string :=
  remove_dups (candidates_of cells correct_answer).

(** How many members of [l] go by the name [correct_answer]. *)
Definition count_same_name (correct_answer : string) (l : list string) : nat :=
  length (filter (fun o => same_name o correct_answer) l).

(** ** Sample sheets *)

Definition first_draw : rng := mkRng (fun _ => O) O.

Definition beagle_row : Row :=
  {[ "Breed" := VStr "Beagle"; "Country" := VStr "England";
     "Creation Time" := VStr "1830s"; "Use" := VStr "hunting";
     "Color" := VNaN; "Personality Traits" := VStr "merry" ]}.

(** Three dogs; the sheet has no Continent column and the Beagle has no
    colour on record. *)
Definition kennel : DataFrame :=
  mkDataFrame
    ["Breed"; "Country"; "Creation Time"; "Use"; "Color"; "Personality Traits"]
    [ beagle_row;
      {[ "Breed" := VStr "Pug"; "Country" := VStr "China";
         "Creation Time" := VStr "antiquity"; "Use" := VStr "companionship";
         "Color" := VStr "fawn"; "Personality Traits" := VStr "charming" ]};
      {[ "Breed" := VStr "Akita"; "Country" := VStr "Japan";
         "Creation Time" := VStr "1600s"; "Use" := VStr "guarding";
         "Color" := VStr "brindle"; "Personality Traits" := VStr "loyal" ]} ].

Definition kennel_decks : gmap string DataFrame := {[ "Dogs" := kennel ]}.

(** A sheet that lists one breed twice. *)
Definition twins : DataFrame :=
  mkDataFrame ["Breed"]
    [ {[ "Breed" := VStr "Akita" ]}; {[ "Breed" := VStr "Pug" ]};
      {[ "Breed" := VStr "Pug" ]} ].

Definition twins_decks : gmap string DataFrame := {[ "Dogs" := twins ]}.

(** A sheet whose only answer cell holds a single space. *)
Definition blank : DataFrame :=
  mkDataFrame ["Breed"; "Color"]
    [ {[ "Breed" := VStr " "; "Color" := VStr "black" ]} ].

Definition blank_decks : gmap string DataFrame := {[ "Dogs" := blank ]}.

(** The state of a round in which the answer is the empty string. *)
Definition blank_round : state :=
  mkState (Some "Dogs")
    (Some {[ "Breed" := VStr " "; "Color" := VStr "black" ]})
    (Some "") (Some [""]) (Some 1) (Some false) (Some 0) (Some 0) (Some None).

(** The state of a Beagle round as [start_round] leaves it. *)
Definition beagle_round : state :=
  mkState (Some "Dogs") (Some beagle_row)
    (Some "Beagle") (Some ["Beagle"; "Pug"; "Akita"]) (Some 1) (Some false)
    (Some 0) (Some 0) (Some None).

(** ** The fact card and the loading of the workbook *)

(** [sep.join(lines)] *)
Fixpoint str_join (sep : string) (lines : list string) : string :=
  match lines with
  | [] => ""
  | [x] => x
  | x :: rest => x +:+ sep +:+ str_join sep rest
  end.

(** [build_all_clues_md]: the heading and the clues 1 to [MAX_CLUES],
    one per line. *)
Definition build_all_clues_md (st : state) : result string :=
  clues ← mapM (fun i => build_composite_clue st (i + 1)) (seqZ 0 MAX_CLUES);
  Ok (str_join Str.nl ("### All Clues" :: clues)).

(** The sheet of each category, in the order of the dict. *)
Definition SHEETS : list (string * string) :=
  [ ("Dogs", "Dog Breed Identification");
    ("Cats", "Cat Breed Identification");
    ("Horses", "Horse Breed Identification");
    ("Dinosaurs", "Dinosaur Species Identification") ].

(** The workbook file, as [pd.read_excel] sees it: the sheets by name.
    A sheet that the workbook does not have raises [ValueError]. *)
Definition read_excel (book : gmap string DataFrame) (sheet_name : string)
  : result DataFrame :=
  match book !! sheet_name with
  | Some df => Ok df
  | None => Raise ValueError
  end.

(** [str.contains("^Unnamed")] on a column label. *)
Definition is_unnamed (label : string) : bool := String.prefix "Unnamed" label.

(** [df.loc[:, ~mask]]: the columns whose label is not unnamed, and the
    records cut down to them. *)
Definition drop_unnamed (df : DataFrame) : DataFrame :=
  mkDataFrame
    (filter (fun c => is_unnamed c = false) (columns df))
    ((fun r : Row => filter (fun kv => is_unnamed kv.1 = false) r) <$> records df).

Definition _load_and_clean_sheet (book : gmap string DataFrame)
  (sheet_name : string) : result DataFrame :=
  df ← read_excel book sheet_name;
  Ok (drop_unnamed df).

(** [DECKS = {category: _load_and_clean_sheet(sheet) for ...}] *)
Definition load_decks (book : gmap string DataFrame)
  : result (gmap string DataFrame) :=
  decks ← mapM (fun cs : string * string =>
                  df ← _load_and_clean_sheet book cs.2; Ok (cs.1, df)) SHEETS;
  Ok (list_to_map decks).

(** ** Playing before the round is resolved *)

(** The round's data: what no handler assigns. *)
Definition same_round_data (st st1 : state) : Prop :=
  category st1 = category st ∧ row st1 = row st ∧ answer st1 = answer st
  ∧ options st1 = options st ∧ img_url st1 = img_url st.

(** A click that does not resolve the round whose answer is [correct]:
    a hint, or a guess that is empty or wrong. *)
Definition unresolving (correct : string) (a : action) : Prop :=
  match a with
  | Hint => True
  | Guess selected => truthy selected = false ∨ ¬ guess_matches selected correct
  | GiveUp => False
  end.

Fixpoint count_hints (acts : list action) : Z :=
  match acts with
  | [] => 0
  | Hint :: rest => 1 + count_hints rest
  | _ :: rest => count_hints rest
  end.

(** A workbook with a stray unnamed column in the dog sheet. *)
Definition workbook : gmap string DataFrame :=
  {[ "Dog Breed Identification" :=
       mkDataFrame ["Breed"; "Unnamed: 1"; "Color"]
         [ {[ "Breed" := VStr "Pug"; "Unnamed: 1" := VNaN;
              "Color" := VStr "fawn" ]} ];
     "Cat Breed Identification" := mkDataFrame ["Breed"] [];
     "Horse Breed Identification" := mkDataFrame ["Breed"] [];
     "Dinosaur Species Identification" := mkDataFrame ["Common Name"] [] ]}.

(** A state that has a category and nothing else. *)
Definition bare_state : state :=
  mkState (Some "Dogs") None None None None None None None None.

(** Membership in [SHEETS], by walking the list. *)
Ltac in_sheets :=
  unfold SHEETS; repeat (apply elem_of_cons; first [by left | right]).

(** * Properties *)

(** ** Sanity checks of the helpers *)

Example safe_str_padded : safe_str (VStr "  Beagle hound  ") = "Beagle hound".
Proof. reflexivity. Qed.

Example safe_str_int : safe_str (VInt (-42)) = "-42".
Proof. by vm_compute. Qed.

Example safe_str_nan : safe_str VNaN = "" ∧ safe_str VNone = "".
Proof. done. Qed.

Example lower_mixed : Str.lower "BeAgLe-9 z" = "beagle-9 z".
Proof. reflexivity. Qed.

Example points_examples :
  points_for_clues_used 0 = 3 ∧ points_for_clues_used 1 = 3
  ∧ points_for_clues_used 2 = 2 ∧ points_for_clues_used 3 = 1
  ∧ points_for_clues_used 7 = 1.
Proof. done. Qed.

Example answer_field_dinosaurs : ANSWER_FIELD !! "Dinosaurs" = Some "Common Name".
Proof. by vm_compute. Qed.

(** ** Strings *)

Lemma is_space_lower_char c : Str.is_space (Str.lower_char c) = Str.is_space c.
Proof. by destruct c as [[] [] [] [] [] [] [] []]. Qed.

Lemma lower_app s1 s2 : Str.lower (s1 +:+ s2) = Str.lower s1 +:+ Str.lower s2.
Proof. induction s1 as [|c s1 IH]; simpl; [done | by rewrite IH]. Qed.

Lemma lstrip_lower s : Str.lstrip (Str.lower s) = Str.lower (Str.lstrip s).
Proof.
  induction s as [|c s IH]; simpl; [done |].
  rewrite is_space_lower_char. by destruct (Str.is_space c).
Qed.

Lemma rstrip_lower s : Str.rstrip (Str.lower s) = Str.lower (Str.rstrip s).
Proof.
  induction s as [|c s IH]; simpl; [done |].
  rewrite IH, is_space_lower_char.
  destruct (Str.rstrip s); simpl; [by destruct (Str.is_space c) | done].
Qed.

Lemma strip_lower s : Str.strip (Str.lower s) = Str.lower (Str.strip s).
Proof. unfold Str.strip. by rewrite lstrip_lower, rstrip_lower. Qed.

Lemma lstrip_all_space ws : Str.all_space ws = true -> Str.lstrip ws = "".
Proof.
  induction ws as [|c ws IH]; simpl; [done |].
  intros [Hc Hws]%andb_true_iff. rewrite Hc. auto.
Qed.

Lemma rstrip_all_space ws : Str.all_space ws = true -> Str.rstrip ws = "".
Proof.
  induction ws as [|c ws IH]; simpl; [done |].
  intros [Hc Hws]%andb_true_iff. by rewrite IH, Hc.
Qed.

Lemma lstrip_space_app ws s :
  Str.all_space ws = true -> Str.lstrip (ws +:+ s) = Str.lstrip s.
Proof.
  induction ws as [|c ws IH]; simpl; [done |].
  intros [Hc Hws]%andb_true_iff. rewrite Hc. auto.
Qed.

Lemma rstrip_app_space s ws :
  Str.all_space ws = true -> Str.rstrip (s +:+ ws) = Str.rstrip s.
Proof.
  intros Hws. induction s as [|c s IH]; simpl.
  - by apply rstrip_all_space.
  - by rewrite IH.
Qed.

Lemma strip_app_space s ws :
  Str.all_space ws = true -> Str.strip (s +:+ ws) = Str.strip s.
Proof.
  intros Hws. unfold Str.strip. induction s as [|c s IH]; simpl.
  - by rewrite lstrip_all_space.
  - destruct (Str.is_space c); [done |].
    by apply (rstrip_app_space (String c s)).
Qed.

(** White space around a string does not survive [strip]. *)
Lemma strip_padded ws1 s ws2 :
  Str.all_space ws1 = true -> Str.all_space ws2 = true ->
  Str.strip (ws1 +:+ s +:+ ws2) = Str.strip s.
Proof.
  intros H1 H2. rewrite <- (strip_app_space s ws2 H2).
  unfold Str.strip. by rewrite lstrip_space_app.
Qed.


(** ** The clue composer *)

Lemma build_composite_clue_total st cat r n :
  category st = Some cat -> row st = Some r ->
  exists text, build_composite_clue st n = Ok text.
Proof.
  intros Hc Hr. unfold build_composite_clue. rewrite Hc, Hr. simpl.
  repeat case_decide; eauto.
Qed.

(** The composer reads the category and the row, nothing else. *)
Lemma build_composite_clue_frame st1 st2 n :
  category st1 = category st2 -> row st1 = row st2 ->
  build_composite_clue st1 n = build_composite_clue st2 n.
Proof. intros Hc Hr. unfold build_composite_clue. by rewrite Hc, Hr. Qed.

(** C9: an unrecognized category, or a clue number other than 1, 2 and 3,
    makes the composer return its fixed fallback text,
    [Clue information unavailable], instead of raising. *)
Theorem build_composite_clue_fallback st cat r n :
  category st = Some cat -> row st = Some r ->
  cat ∉ ["Dogs"; "Cats"; "Horses"; "Dinosaurs"] ∨ n ∉ [1; 2; 3] ->
  build_composite_clue st n = Ok clue_unavailable.
Proof.
  intros Hc Hr Hout. unfold build_composite_clue. rewrite Hc, Hr. simpl.
  destruct Hout as [Hcat | Hn].
  - repeat case_decide; subst; try done; exfalso; apply Hcat; set_solver.
  - repeat case_decide; subst; try done; exfalso; apply Hn; set_solver.
Qed.

Lemma build_composite_clue_fallback_witness :
  build_composite_clue beagle_round 4 = Ok clue_unavailable.
Proof.
  apply (build_composite_clue_fallback beagle_round "Dogs" beagle_row 4);
    [reflexivity | reflexivity | right].
  rewrite !not_elem_of_cons. repeat split; [lia.. | apply not_elem_of_nil].
Defined.

(** ** Rounds in play and rounds that are over *)

Lemma is_game_active_spec st :
  is_game_active st = true <->
  is_Some (category st) ∧ round_over_of st = false.
Proof.
  unfold is_game_active, round_over_of. split.
  - intros [[_ Hcat]%andb_true_iff Hover%negb_true_iff]%andb_true_iff.
    split; [| done]. by destruct (category st).
  - intros [[cat Hcat] Hover]. rewrite Hover.
    destruct st; simpl in *; by subst.
Qed.

Lemma round_over_inactive st :
  round_over st = Some true -> is_game_active st = false.
Proof.
  intros H. unfold is_game_active. rewrite H. simpl. apply andb_false_r.
Qed.

(** C6: once [round_over] is true, a hint, a guess and a give-up each
    append one guidance message to the chat and hand back the state as
    it was, every field of it, without touching a widget. *)
Theorem ended_round_is_frozen st chat selected :
  round_over st = Some true ->
  exists m1 m2 m3,
    guidance m1 ∧ guidance m2 ∧ guidance m3
    ∧ give_hint chat st = Ok (or_nil chat ++ [as_msg "assistant" m1], st)
    ∧ submit_guess selected chat st
      = Ok (or_nil chat ++ [as_msg "assistant" m2], st, no_updates)
    ∧ giveUp chat st
      = Ok (or_nil chat ++ [as_msg "assistant" m3], st, no_updates).
Proof.
  intros Hover. apply round_over_inactive in Hover as Hact.
  unfold give_hint, submit_guess, giveUp. rewrite Hact. simpl.
  destruct (negb (dict_nonempty st) || negb (has_key (category st))).
  - exists msg_pick_category, msg_pick_category, msg_pick_category_start.
    unfold guidance. tauto.
  - exists msg_round_over, msg_round_over, msg_round_over.
    unfold guidance. tauto.
Qed.

Lemma ended_round_is_frozen_witness :
  round_over (set_round_over true beagle_round) = Some true
  ∧ exists m1 m2 m3,
      guidance m1 ∧ guidance m2 ∧ guidance m3
      ∧ give_hint None (set_round_over true beagle_round)
        = Ok ([as_msg "assistant" m1], set_round_over true beagle_round)
      ∧ submit_guess (VStr "Beagle") None (set_round_over true beagle_round)
        = Ok ([as_msg "assistant" m2], set_round_over true beagle_round, no_updates)
      ∧ giveUp None (set_round_over true beagle_round)
        = Ok ([as_msg "assistant" m3], set_round_over true beagle_round, no_updates).
Proof.
  split; [reflexivity |].
  apply (ended_round_is_frozen (set_round_over true beagle_round) None (VStr "Beagle")).
  reflexivity.
Defined.

(** In a round that is over and has a category, the message is the
    one that says so. *)
Lemma ended_round_message st chat cat :
  round_over st = Some true -> category st = Some cat ->
  give_hint chat st = Ok (or_nil chat ++ [as_msg "assistant" msg_round_over], st).
Proof.
  intros Hover Hcat. unfold give_hint. rewrite (round_over_inactive _ Hover).
  destruct st; simpl in *; by subst.
Qed.

(** ** Guesses *)

(** What [submit_guess] does past its two guards. *)
Lemma submit_guess_active selected chat st correct :
  is_game_active st = true -> truthy selected = true ->
  answer st = Some correct ->
  submit_guess selected chat st =
    let chat1 := or_nil chat ++ [as_msg "user" ("My guess: " +:+ py_str selected)] in
    if decide (guess_matches selected correct) then
      let clues_used := Z.max 1 (clue_index_of st) in
      let pts := points_for_clues_used clues_used in
      Ok (chat1 ++
            [as_msg "assistant"
               (check_mark +:+ " Correct! **" +:+ correct +:+ "**" +:+ Str.nl +:+ Str.nl
                +:+ "Points: **+" +:+ pretty pts +:+ "** (you used "
                +:+ pretty clues_used +:+ " clue(s))" +:+ Str.nl +:+ Str.nl
                +:+ "Click **New Round** to play again.")],
          set_round_over true
            (set_streak (streak_of st + 1) (set_score (score_of st + pts) st)),
          reveal_image)
    else
      Ok (chat1 ++ [as_msg "assistant" msg_not_quite], set_streak 0 st, no_updates).
Proof.
  intros Hact Htr Hans. unfold submit_guess. rewrite Hact, Htr, Hans. simpl.
  reflexivity.
Qed.

(** An empty selection is turned away before it is compared. *)
Lemma submit_guess_empty selected chat st :
  is_game_active st = true -> truthy selected = false ->
  submit_guess selected chat st
  = Ok (or_nil chat ++ [as_msg "assistant" msg_choose_option], st, no_updates).
Proof. intros Hact Htr. unfold submit_guess. by rewrite Hact, Htr. Qed.

Lemma points_for_clues_used_table clues_used :
  1 <= clues_used ->
  (clues_used = 1 -> points_for_clues_used clues_used = 3)
  ∧ (clues_used = 2 -> points_for_clues_used clues_used = 2)
  ∧ (3 <= clues_used -> points_for_clues_used clues_used = 1).
Proof.
  intros Hpos. unfold points_for_clues_used.
  repeat split; intros; repeat case_decide; lia.
Qed.

(** Names that agree up to case are a match for the handler. *)
Lemma same_name_guess_matches s correct :
  same_name s correct -> guess_matches (VStr s) correct.
Proof.
  unfold same_name, guess_matches. simpl. intros H.
  by rewrite <- !strip_lower, H.
Qed.

(** C7: in a round in play, a non-empty guess that does not match the
    answer leaves the score alone, sets the streak to 0 and leaves
    [round_over] false, so that the round goes on; the clue counter and
    the round's data are untouched as well. *)
Theorem wrong_guess_resets_streak selected chat st correct :
  is_game_active st = true -> truthy selected = true ->
  answer st = Some correct -> ¬ guess_matches selected correct ->
  exists chat1 st1,
    submit_guess selected chat st = Ok (chat1, st1, no_updates)
    ∧ score st1 = score st
    ∧ streak st1 = Some 0
    ∧ round_over st1 = round_over st
    ∧ round_over_of st1 = false
    ∧ is_game_active st1 = true
    ∧ clue_index st1 = clue_index st
    ∧ last chat1 = Some (as_msg "assistant" msg_not_quite).
Proof.
  intros Hact Htr Hans Hwrong.
  rewrite (submit_guess_active _ _ _ _ Hact Htr Hans). simpl.
  rewrite decide_False by done.
  eexists _, _. split; [reflexivity |].
  apply is_game_active_spec in Hact as Hact'. destruct Hact' as [Hcat Hover].
  repeat split; try done.
  - apply is_game_active_spec. by split.
  - by rewrite last_snoc.
Qed.

Lemma wrong_guess_resets_streak_witness :
  exists chat1 st1,
    submit_guess (VStr "Pug") None beagle_round = Ok (chat1, st1, no_updates)
    ∧ score st1 = score beagle_round
    ∧ streak st1 = Some 0
    ∧ round_over st1 = round_over beagle_round
    ∧ round_over_of st1 = false
    ∧ is_game_active st1 = true
    ∧ clue_index st1 = clue_index beagle_round
    ∧ last chat1 = Some (as_msg "assistant" msg_not_quite).
Proof.
  apply (wrong_guess_resets_streak (VStr "Pug") None beagle_round "Beagle");
    [reflexivity | reflexivity | reflexivity | by vm_compute].
Defined.

(** C2, as amended: in a round in play, a non-empty guess that matches
    the answer up to case is credited with [clues_used = max(1,
    clue_index)] clues, earns 3 points for one clue, 2 for two and 1 for
    three or more, adds exactly these points to the score and 1 to the
    streak, and sets [round_over]. *)
Theorem correct_guess_scores selected chat st correct :
  is_game_active st = true -> truthy selected = true ->
  answer st = Some correct -> guess_matches selected correct ->
  exists chat1 st1 clues_used pts,
    submit_guess selected chat st = Ok (chat1, st1, reveal_image)
    ∧ clues_used = Z.max 1 (clue_index_of st)
    ∧ (clues_used = 1 -> pts = 3)
    ∧ (clues_used = 2 -> pts = 2)
    ∧ (3 <= clues_used -> pts = 1)
    ∧ score st1 = Some (score_of st + pts)
    ∧ streak st1 = Some (streak_of st + 1)
    ∧ round_over st1 = Some true
    ∧ clue_index st1 = clue_index st.
Proof.
  intros Hact Htr Hans Hright.
  rewrite (submit_guess_active _ _ _ _ Hact Htr Hans). simpl.
  rewrite decide_True by done.
  eexists _, _, (Z.max 1 (clue_index_of st)),
    (points_for_clues_used (Z.max 1 (clue_index_of st))).
  split; [reflexivity |]. split; [reflexivity |].
  destruct (points_for_clues_used_table (Z.max 1 (clue_index_of st)))
    as (H1 & H2 & H3); [lia |].
  repeat split; auto.
Qed.

Lemma correct_guess_scores_witness :
  exists chat1 st1 clues_used pts,
    submit_guess (VStr "beagle") None beagle_round = Ok (chat1, st1, reveal_image)
    ∧ clues_used = Z.max 1 (clue_index_of beagle_round)
    ∧ (clues_used = 1 -> pts = 3)
    ∧ (clues_used = 2 -> pts = 2)
    ∧ (3 <= clues_used -> pts = 1)
    ∧ score st1 = Some (score_of beagle_round + pts)
    ∧ streak st1 = Some (streak_of beagle_round + 1)
    ∧ round_over st1 = Some true
    ∧ clue_index st1 = clue_index beagle_round.
Proof.
  apply (correct_guess_scores (VStr "beagle") None beagle_round "Beagle");
    reflexivity.
Defined.

(** C2, as stated, fails on the round whose answer is the empty string
    ([start_round] leaves it so on a sheet whose answer cell is blank):
    the empty guess equals the answer up to case, yet the handler asks
    for a choice, awards nothing and keeps the round open. *)
Lemma empty_guess_scores_nothing :
  started (start_round blank_decks "Dogs" None first_draw) = Some blank_round
  ∧ is_game_active blank_round = true
  ∧ answer blank_round = Some ""
  ∧ same_name "" ""
  ∧ submit_guess (VStr "") None blank_round
    = Ok ([as_msg "assistant" msg_choose_option], blank_round, no_updates)
  ∧ ¬ (exists chat1 st1 w,
         submit_guess (VStr "") None blank_round = Ok (chat1, st1, w)
         ∧ score st1 = Some (score_of blank_round + 3)
         ∧ streak st1 = Some (streak_of blank_round + 1)
         ∧ round_over st1 = Some true).
Proof.
  split; [by vm_compute |]. split; [done |]. split; [done |]. split; [done |].
  split; [done |].
  intros (chat1 & st1 & w & Hrun & _ & _ & Hover).
  change (submit_guess (VStr "") None blank_round)
    with (Ok ([as_msg "assistant" msg_choose_option], blank_round, no_updates))
    in Hrun.
  by simplify_eq.
Qed.

(** C10, as amended: in a round in play, a non-empty selected string is
    accepted exactly when it equals the answer once both are stripped
    of surrounding white space and put in lower case; so the answer
    wrapped in extra white space is accepted. *)
Theorem guess_accepted_iff chat st correct :
  is_game_active st = true -> answer st = Some correct ->
  (forall s, s ≠ "" ->
     accepted (VStr s) chat st
     <-> Str.lower (Str.strip s) = Str.lower (Str.strip correct))
  ∧ (forall ws1 ws2,
       Str.all_space ws1 = true -> Str.all_space ws2 = true ->
       ws1 +:+ correct +:+ ws2 ≠ "" ->
       accepted (VStr (ws1 +:+ correct +:+ ws2)) chat st).
Proof.
  intros Hact Hans.
  assert (Hiff : forall s, s ≠ "" ->
     accepted (VStr s) chat st
     <-> Str.lower (Str.strip s) = Str.lower (Str.strip correct)).
  { intros s Hs. unfold accepted.
    rewrite (submit_guess_active (VStr s) chat st correct Hact); [| by destruct s | done].
    simpl. case_decide as Hm.
    - split; [done |]. intros _. eexists _, _. split; reflexivity.
    - split; [| done]. intros (chat1 & st1 & Hrun & _). simplify_eq. }
  split; [done |].
  intros ws1 ws2 H1 H2 Hne. apply Hiff; [done |].
  by rewrite strip_padded.
Qed.

Lemma guess_accepted_iff_witness :
  (forall s, s ≠ "" ->
     accepted (VStr s) None beagle_round
     <-> Str.lower (Str.strip s) = Str.lower (Str.strip "Beagle"))
  ∧ (forall ws1 ws2,
       Str.all_space ws1 = true -> Str.all_space ws2 = true ->
       ws1 +:+ "Beagle" +:+ ws2 ≠ "" ->
       accepted (VStr (ws1 +:+ "Beagle" +:+ ws2)) None beagle_round).
Proof.
  apply (guess_accepted_iff None beagle_round "Beagle"); reflexivity.
Defined.

(** C10, as stated, fails on the round whose answer is the empty string:
    the empty selection equals the answer after stripping and
    lowercasing, and it is not accepted. *)
Lemma empty_selection_not_accepted :
  started (start_round blank_decks "Dogs" None first_draw) = Some blank_round
  ∧ is_game_active blank_round = true
  ∧ answer blank_round = Some ""
  ∧ Str.lower (Str.strip "") = Str.lower (Str.strip "")
  ∧ ¬ accepted (VStr "") None blank_round.
Proof.
  split; [by vm_compute |]. split; [done |]. split; [done |]. split; [done |].
  intros (chat1 & st1 & Hrun & _).
  change (submit_guess (VStr "") None blank_round)
    with (Ok ([as_msg "assistant" msg_choose_option], blank_round, no_updates))
    in Hrun.
  by simplify_eq.
Qed.

(** ** Hints *)

Lemma is_game_active_set_clue_index v st :
  is_game_active (set_clue_index v st) = is_game_active st.
Proof. apply Bool.eq_true_iff_eq. by rewrite !is_game_active_spec. Qed.

(** A hint in a round in play that has clues left: the next clue is
    shown and the counter moves by one. *)
Lemma hint_step_clue chat st text :
  is_game_active st = true -> clue_index_of st < MAX_CLUES ->
  build_composite_clue st (clue_index_of st + 1) = Ok text ->
  step Hint (chat, st)
  = Ok (chat ++ [as_msg "assistant" text],
        set_clue_index (clue_index_of st + 1) st).
Proof.
  intros Hact Hlt Hclue. unfold step, give_hint, next_clue_text. simpl.
  fold (clue_index_of st). rewrite Hact. simpl.
  rewrite decide_False by lia. by rewrite Hclue.
Qed.

(** A hint when the three clues are out: the refusal, and no change. *)
Lemma hint_step_exhausted chat st :
  is_game_active st = true -> MAX_CLUES <= clue_index_of st ->
  step Hint (chat, st) = Ok (chat ++ [as_msg "assistant" no_more_clues], st).
Proof.
  intros Hact Hge. unfold step, give_hint, next_clue_text. simpl.
  fold (clue_index_of st). rewrite Hact. simpl.
  by rewrite decide_True by lia.
Qed.

Lemma bind_Ok {A B} (a : A) (k : A -> result B) : (x ← Ok a; k x) = k a.
Proof. reflexivity. Qed.

Lemma bind_Ok_inv {A B} (r : result A) (k : A -> result B) b :
  (x ← r; k x) = Ok b -> exists a, r = Ok a ∧ k a = Ok b.
Proof. destruct r as [a|e]; [eauto | done]. Qed.

Lemma run_cons a rest cs : run (a :: rest) cs = cs1 ← step a cs; run rest cs1.
Proof. reflexivity. Qed.

Lemma run_app acts1 acts2 cs :
  run (acts1 ++ acts2) cs = cs1 ← run acts1 cs; run acts2 cs1.
Proof.
  revert cs. induction acts1 as [|a acts1 IH]; intros cs; [done |].
  cbn [app]. rewrite !run_cons.
  destruct (step a cs) as [cs1|e]; [| done]. rewrite !bind_Ok. apply IH.
Qed.

Lemma hints_exhausted n chat st :
  is_game_active st = true -> MAX_CLUES <= clue_index_of st ->
  hints n (chat, st)
  = Ok (chat ++ replicate n (as_msg "assistant" no_more_clues), st).
Proof.
  intros Hact Hge. unfold hints. revert chat.
  induction n as [|n IH]; intros chat; cbn [replicate].
  - by rewrite app_nil_r.
  - rewrite run_cons, hint_step_exhausted, bind_Ok, IH by done.
    by rewrite <- app_assoc.
Qed.

(** C3, as amended: in a round in play whose clue counter is 0, four
    hints in a row show clue 1, clue 2 and clue 3, the counter moving
    by one each time, and then the refusal; the counter is 3 from the
    third hint on, and every further hint repeats the refusal and
    leaves the state as it is. *)
Theorem four_hints_from_fresh chat st cat r :
  is_game_active st = true ->
  category st = Some cat -> row st = Some r -> clue_index_of st = 0 ->
  exists c1 c2 c3,
    build_composite_clue st 1 = Ok c1
    ∧ build_composite_clue st 2 = Ok c2
    ∧ build_composite_clue st 3 = Ok c3
    ∧ hints 1 (chat, st)
      = Ok (chat ++ [as_msg "assistant" c1], set_clue_index 1 st)
    ∧ hints 2 (chat, st)
      = Ok (chat ++ [as_msg "assistant" c1; as_msg "assistant" c2],
            set_clue_index 2 st)
    ∧ hints 3 (chat, st)
      = Ok (chat ++ [as_msg "assistant" c1; as_msg "assistant" c2;
                     as_msg "assistant" c3],
            set_clue_index 3 st)
    ∧ forall n,
        hints (4 + n) (chat, st)
        = Ok (chat ++ [as_msg "assistant" c1; as_msg "assistant" c2;
                       as_msg "assistant" c3]
                   ++ replicate (S n) (as_msg "assistant" no_more_clues),
              set_clue_index 3 st).
Proof.
  intros Hact Hcat Hrow Hzero.
  destruct (build_composite_clue_total st cat r 1 Hcat Hrow) as [c1 Hc1].
  destruct (build_composite_clue_total st cat r 2 Hcat Hrow) as [c2 Hc2].
  destruct (build_composite_clue_total st cat r 3 Hcat Hrow) as [c3 Hc3].
  exists c1, c2, c3. split; [done |]. split; [done |]. split; [done |].
  assert (H1 : step Hint (chat, st)
               = Ok (chat ++ [as_msg "assistant" c1], set_clue_index 1 st)).
  { rewrite (hint_step_clue chat st c1), Hzero; rewrite ?Hzero; done. }
  assert (H2 : forall ch, step Hint (ch, set_clue_index 1 st)
               = Ok (ch ++ [as_msg "assistant" c2], set_clue_index 2 st)).
  { intros ch. apply (hint_step_clue ch (set_clue_index 1 st) c2).
    - by rewrite is_game_active_set_clue_index.
    - reflexivity.
    - exact Hc2. }
  assert (H3 : forall ch, step Hint (ch, set_clue_index 2 st)
               = Ok (ch ++ [as_msg "assistant" c3], set_clue_index 3 st)).
  { intros ch. apply (hint_step_clue ch (set_clue_index 2 st) c3).
    - by rewrite is_game_active_set_clue_index.
    - reflexivity.
    - exact Hc3. }
  assert (Hthree : hints 3 (chat, st)
      = Ok (chat ++ [as_msg "assistant" c1; as_msg "assistant" c2;
                     as_msg "assistant" c3],
            set_clue_index 3 st)).
  { unfold hints. cbn [replicate].
    rewrite run_cons, H1, bind_Ok, run_cons, H2, bind_Ok, run_cons, H3, bind_Ok.
    cbn [run]. by rewrite <- !app_assoc. }
  split.
  { unfold hints. cbn [replicate]. by rewrite run_cons, H1, bind_Ok. }
  split.
  { unfold hints. cbn [replicate].
    rewrite run_cons, H1, bind_Ok, run_cons, H2, bind_Ok.
    cbn [run]. by rewrite <- !app_assoc. }
  split; [done |].
  intros n. unfold hints in *.
  change (4 + n)%nat with (3 + S n)%nat.
  rewrite replicate_add, run_app, Hthree, bind_Ok.
  change (run (replicate (S n) Hint)) with (hints (S n)).
  rewrite hints_exhausted; [by rewrite <- !app_assoc | | done].
  by rewrite is_game_active_set_clue_index.
Qed.

Lemma four_hints_from_fresh_witness :
  exists c1 c2 c3,
    build_composite_clue (set_clue_index 0 beagle_round) 1 = Ok c1
    ∧ build_composite_clue (set_clue_index 0 beagle_round) 2 = Ok c2
    ∧ build_composite_clue (set_clue_index 0 beagle_round) 3 = Ok c3
    ∧ hints 1 ([], set_clue_index 0 beagle_round)
      = Ok ([] ++ [as_msg "assistant" c1],
            set_clue_index 1 (set_clue_index 0 beagle_round))
    ∧ hints 2 ([], set_clue_index 0 beagle_round)
      = Ok ([] ++ [as_msg "assistant" c1; as_msg "assistant" c2],
            set_clue_index 2 (set_clue_index 0 beagle_round))
    ∧ hints 3 ([], set_clue_index 0 beagle_round)
      = Ok ([] ++ [as_msg "assistant" c1; as_msg "assistant" c2;
                   as_msg "assistant" c3],
            set_clue_index 3 (set_clue_index 0 beagle_round))
    ∧ forall n,
        hints (4 + n) ([], set_clue_index 0 beagle_round)
        = Ok ([] ++ [as_msg "assistant" c1; as_msg "assistant" c2;
                     as_msg "assistant" c3]
                 ++ replicate (S n) (as_msg "assistant" no_more_clues),
              set_clue_index 3 (set_clue_index 0 beagle_round)).
Proof.
  apply (four_hints_from_fresh [] (set_clue_index 0 beagle_round) "Dogs" beagle_row);
    reflexivity.
Defined.

(** C3, as stated, fails on the round that [start_round] returns: its
    first clue is out already, so the first two hints show clue 2 and
    clue 3, and the third hint is the refusal, not a clue. *)
Lemma third_hint_after_start_refused :
  started (start_round kennel_decks "Dogs" None first_draw) = Some beagle_round
  ∧ is_game_active beagle_round = true
  ∧ hints 3 ([], beagle_round)
    = Ok ([as_msg "assistant"
             "**Clue 2:** This species is often found in colors: ";
           as_msg "assistant"
             "**Clue 3:** Personality traits associated with the species are merry";
           as_msg "assistant" no_more_clues],
          set_clue_index 3 beagle_round)
  ∧ ¬ (exists c1 c2 c3 st1,
         build_composite_clue beagle_round 1 = Ok c1
         ∧ build_composite_clue beagle_round 2 = Ok c2
         ∧ build_composite_clue beagle_round 3 = Ok c3
         ∧ hints 3 ([], beagle_round)
           = Ok ([as_msg "assistant" c1; as_msg "assistant" c2;
                  as_msg "assistant" c3], st1)).
Proof.
  assert (Hrun : hints 3 ([], beagle_round)
    = Ok ([as_msg "assistant"
             "**Clue 2:** This species is often found in colors: ";
           as_msg "assistant"
             "**Clue 3:** Personality traits associated with the species are merry";
           as_msg "assistant" no_more_clues],
          set_clue_index 3 beagle_round)) by (by vm_compute).
  split; [by vm_compute |]. split; [done |]. split; [done |].
  intros (c1 & c2 & c3 & st1 & H1 & _ & _ & H).
  rewrite Hrun in H. vm_compute in H1. by simplify_eq.
Qed.

(** ** Invariants of a round *)

(** What [giveUp] does in a round in play. *)
Lemma giveUp_active chat st correct :
  is_game_active st = true -> answer st = Some correct ->
  giveUp chat st
  = Ok (or_nil chat ++
          [as_msg "assistant"
             ("All good " +:+ em_dash +:+ " the answer was **" +:+ correct
              +:+ "**." +:+ Str.nl +:+ Str.nl
              +:+ "Click **New Round** when you're ready.")],
        set_streak 0 (set_round_over true st), reveal_image).
Proof.
  intros Hact Hans. unfold giveUp. rewrite Hact. cbn [negb answer set_streak set_round_over].
  by rewrite Hans.
Qed.

(** The setters keep a round a round. *)
Lemma round_ok_frame st st1 :
  round_ok st ->
  category st1 = category st -> row st1 = row st -> answer st1 = answer st ->
  0 <= clue_index_of st1 <= MAX_CLUES ->
  round_ok st1.
Proof.
  intros (Hcat & Hrow & Hans & _) E1 E2 E3 Hidx. unfold round_ok.
  by rewrite E1, E2, E3.
Qed.

(** One click keeps a round a round, never lowers the clue counter and
    never reopens a round that is over; and no click raises. *)
Lemma step_round_ok a chat st :
  round_ok st ->
  exists chat1 st1,
    step a (chat, st) = Ok (chat1, st1)
    ∧ round_ok st1
    ∧ clue_index_of st <= clue_index_of st1
    ∧ (round_over_of st = true -> round_over_of st1 = true).
Proof.
  intros Hok. pose proof Hok as (Hcat & Hrow & Hans & Hidx).
  destruct Hcat as [cat Hcat], Hrow as [r Hrow], Hans as [correct Hans].
  assert (Hsame : round_ok st ∧ clue_index_of st <= clue_index_of st
    ∧ (round_over_of st = true -> round_over_of st = true))
    by (split_and!; [done | lia | done]).
  destruct a as [|selected|]; unfold step; cbn [fst snd].
  - unfold give_hint. destruct (is_game_active st) eqn:Hact; cbn [negb].
    + unfold next_clue_text. fold (clue_index_of st). case_decide as Hge.
      * rewrite bind_Ok. eexists _, _. split; [reflexivity | auto].
      * destruct (build_composite_clue_total st cat r (clue_index_of st + 1))
          as [text Htext]; [done.. |].
        rewrite Htext, !bind_Ok. eexists _, _. split; [reflexivity |].
        unfold MAX_CLUES in *. split_and!.
        -- apply (round_ok_frame st); try done. unfold MAX_CLUES. cbn. lia.
        -- cbn. lia.
        -- done.
    + eexists _, _. split; [reflexivity | auto].
  - destruct (is_game_active st) eqn:Hact.
    + destruct (truthy selected) eqn:Htr.
      * rewrite (submit_guess_active _ _ _ _ Hact Htr Hans). cbv zeta.
        case_decide; rewrite bind_Ok; eexists _, _; (split; [reflexivity |]).
        -- split_and!; [by apply (round_ok_frame st) | done | done].
        -- split_and!; [by apply (round_ok_frame st) | done | done].
      * rewrite (submit_guess_empty _ _ _ Hact Htr), bind_Ok.
        eexists _, _. split; [reflexivity | auto].
    + unfold submit_guess. rewrite Hact. cbn [negb]. rewrite bind_Ok.
      eexists _, _. split; [reflexivity | auto].
  - destruct (is_game_active st) eqn:Hact.
    + rewrite (giveUp_active _ _ _ Hact Hans), bind_Ok.
      eexists _, _. split; [reflexivity |].
      split_and!; [by apply (round_ok_frame st) | done | done].
    + unfold giveUp. rewrite Hact. cbn [negb]. rewrite bind_Ok.
      eexists _, _. split; [reflexivity | auto].
Qed.

(** The same for every sequence of clicks. *)
Lemma run_round_ok acts chat st :
  round_ok st ->
  exists chat1 st1,
    run acts (chat, st) = Ok (chat1, st1)
    ∧ round_ok st1
    ∧ clue_index_of st <= clue_index_of st1 <= MAX_CLUES
    ∧ (round_over_of st = true -> round_over_of st1 = true).
Proof.
  revert chat st. induction acts as [|a acts IH]; intros chat st Hok.
  - exists chat, st. split; [done |]. split; [done |].
    destruct Hok as (_ & _ & _ & Hidx). split; [lia | done].
  - destruct (step_round_ok a chat st Hok) as (chat1 & st1 & Hstep & Hok1 & Hle & Hov).
    destruct (IH chat1 st1 Hok1) as (chat2 & st2 & Hrun & Hok2 & Hle2 & Hov2).
    exists chat2, st2. rewrite run_cons, Hstep, bind_Ok.
    split; [done |]. split; [done |]. split; [lia | auto].
Qed.

(** ** Drawing without replacement *)

Lemma randbelow_lt n g : (0 < n)%nat -> ((randbelow n g).1 < n)%nat.
Proof. intros Hn. unfold randbelow. cbn [fst]. apply Nat.mod_upper_bound. lia. Qed.

(** What is drawn comes out of the pool, position by position. *)
Lemma draw_many_submseteq {A} k (pool : list A) g :
  (draw_many k pool g).1 ⊆+ pool.
Proof.
  revert pool g. induction k as [|k IH]; intros pool g; cbn [draw_many].
  - apply submseteq_nil_l.
  - destruct (randbelow (length pool) g) as [j g1].
    destruct (pool !! j) as [x|] eqn:Hj; [| apply submseteq_nil_l].
    specialize (IH (delete j pool) g1).
    destruct (draw_many k (delete j pool) g1) as [r g2]. cbn [fst] in *.
    rewrite (delete_Permutation pool j x Hj). by apply submseteq_skip.
Qed.

(** As many are drawn as asked for, if the pool has that many. *)
Lemma draw_many_length {A} k (pool : list A) g :
  (k <= length pool)%nat -> length (draw_many k pool g).1 = k.
Proof.
  revert pool g. induction k as [|k IH]; intros pool g Hk; cbn [draw_many]; [done |].
  pose proof (randbelow_lt (length pool) g ltac:(lia)) as Hlt.
  destruct (randbelow (length pool) g) as [j g1]. cbn [fst] in Hlt.
  destruct (lookup_lt_is_Some_2 pool j Hlt) as [x Hj]. rewrite Hj.
  specialize (IH (delete j pool) g1).
  rewrite length_delete in IH by eauto.
  destruct (draw_many k (delete j pool) g1) as [r g2]. cbn [fst length] in *.
  rewrite IH; lia.
Qed.

Lemma random_shuffle_Permutation {A} (x : list A) g :
  (random_shuffle x g).1 ≡ₚ x.
Proof.
  unfold random_shuffle. apply submseteq_length_Permutation.
  - apply draw_many_submseteq.
  - by rewrite draw_many_length.
Qed.

Lemma random_sample_spec {A} (population : list A) k g sample g1 :
  random_sample population k g = Ok (sample, g1) ->
  sample ⊆+ population ∧ Z.of_nat (length sample) = k.
Proof.
  unfold random_sample. case_decide as Hk; [| done]. intros [= Hdraw].
  pose proof (draw_many_submseteq (Z.to_nat k) population g) as Hsub.
  pose proof (draw_many_length (Z.to_nat k) population g ltac:(lia)) as Hlen.
  rewrite Hdraw in Hsub, Hlen. cbn [fst] in *. split; [done | lia].
Qed.

Lemma submseteq_NoDup {A} (l k : list A) : l ⊆+ k -> NoDup k -> NoDup l.
Proof.
  intros [rest Hrest]%submseteq_Permutation. rewrite Hrest.
  by intros [? _]%NoDup_app.
Qed.

Lemma submseteq_Forall {A} (P : A -> Prop) (l k : list A) :
  l ⊆+ k -> Forall P k -> Forall P l.
Proof.
  intros Hsub. rewrite !Forall_forall. intros Hk x Hx.
  apply Hk. by apply (elem_of_submseteq l).
Qed.

Lemma remove_dups_NoDup `{EqDecision A} (l : list A) :
  NoDup l -> remove_dups l = l.
Proof.
  induction 1 as [|x l Hx _ IH]; cbn [remove_dups]; [done |].
  destruct (decide_rel elem_of x l); [done | by rewrite IH].
Qed.

(** ** Starting a round *)

Lemma dict_item_Ok {V} (d : gmap string V) key v :
  dict_item d key = Ok v <-> d !! key = Some v.
Proof. unfold dict_item. destruct (d !! key); split; congruence. Qed.

(** No candidate goes by the name of the answer, and none is empty. *)
Lemma candidates_of_Forall cells correct :
  Forall (fun c => Str.nonempty c ∧ ¬ same_name c correct)
         (candidates_of cells correct).
Proof.
  unfold candidates_of. apply Forall_forall. intros c Hc.
  by apply list_elem_of_filter in Hc as [Hc _].
Qed.

(** The options are the answer and distractors drawn from the
    candidates at different positions, as many as three if there are
    that many, in some order. *)
Lemma make_options_spec DECKS cat correct g opts g2 :
  make_options DECKS cat correct 4 g = Ok (opts, g2) ->
  exists df col cells distractors,
    DECKS !! cat = Some df
    ∧ ANSWER_FIELD !! cat = Some col
    ∧ df_column df col = Ok cells
    ∧ opts ≡ₚ correct :: distractors
    ∧ distractors ⊆+ candidates_of cells correct
    ∧ length distractors = (3 `min` length (candidates_of cells correct))%nat.
Proof.
  unfold make_options. intros H.
  apply bind_Ok_inv in H as (df & Hdf%dict_item_Ok & H).
  apply bind_Ok_inv in H as (col & Hcol%dict_item_Ok & H).
  apply bind_Ok_inv in H as (cells & Hcells & H).
  apply bind_Ok_inv in H as ([distractors g1] & Hsample & H).
  injection H as Hshuffle.
  apply random_sample_spec in Hsample as [Hsub Hlen].
  exists df, col, cells, distractors. split_and!; try done.
  - pose proof (random_shuffle_Permutation (correct :: distractors) g1) as Hperm.
    by rewrite Hshuffle in Hperm.
  - lia.
Qed.

(** What [start_round] has done when it returns. *)
Lemma start_round_inv DECKS cat prior g st chat opts g2 :
  start_round DECKS cat prior g = Ok (st, chat, opts, g2) ->
  exists r g1 col clue,
    pick_round_row DECKS cat g = Ok (r, g1)
    ∧ ANSWER_FIELD !! cat = Some col
    ∧ make_options DECKS cat (safe_str (row_get r col (VStr ""))) 4 g1
      = Ok (opts, g2)
    ∧ chat = [as_msg "assistant"
                ("Here's your first clue:" +:+ Str.nl +:+ Str.nl +:+ clue
                 +:+ Str.nl +:+ Str.nl)]
    ∧ st = mkState (Some cat) (Some r)
             (Some (safe_str (row_get r col (VStr "")))) (Some opts) (Some 1)
             (Some false) (Some (default 0 (prior ≫= score)))
             (Some (default 0 (prior ≫= streak)))
             (Some (get_example_image r)).
Proof.
  unfold start_round. intros H.
  apply bind_Ok_inv in H as ([r g1] & Hpick & H).
  apply bind_Ok_inv in H as (col & Hcol%dict_item_Ok & H).
  apply bind_Ok_inv in H as ([opts1 g3] & Hopts & H).
  apply bind_Ok_inv in H as ([clue st1] & Hclue & H).
  injection H as <- <- <- <-.
  unfold next_clue_text in Hclue. cbn [clue_index] in Hclue.
  change (default 0 (Some 0)) with 0 in Hclue.
  rewrite decide_False in Hclue by (unfold MAX_CLUES; lia).
  apply bind_Ok_inv in Hclue as (text & _ & [= <- <-]).
  by exists r, g1, col, text.
Qed.

(** A round that has just started is a round in play with one clue
    out. *)
Lemma start_round_round_ok DECKS cat prior g st chat opts g2 :
  start_round DECKS cat prior g = Ok (st, chat, opts, g2) ->
  round_ok st ∧ clue_index st = Some 1 ∧ round_over st = Some false
  ∧ is_game_active st = true.
Proof.
  intros (r & g1 & col & clue & _ & _ & _ & _ & ->)%start_round_inv.
  unfold round_ok, clue_index_of, MAX_CLUES. cbn. split_and!; eauto; lia.
Qed.

(** C8: from the state that [start_round] returns, every sequence of
    hints, guesses and give-ups runs without raising, and between any
    two moments of it the clue counter does not decrease and stays at
    most 3, and [round_over], once true, stays true. *)
Theorem round_invariants DECKS cat prior g st0 chat0 opts g2 :
  start_round DECKS cat prior g = Ok (st0, chat0, opts, g2) ->
  forall acts1 acts2,
  exists chat1 st1 chat2 st2,
    run acts1 (chat0, st0) = Ok (chat1, st1)
    ∧ run (acts1 ++ acts2) (chat0, st0) = Ok (chat2, st2)
    ∧ run acts2 (chat1, st1) = Ok (chat2, st2)
    ∧ clue_index_of st0 <= clue_index_of st1
    ∧ clue_index_of st1 <= clue_index_of st2
    ∧ clue_index_of st2 <= 3
    ∧ (round_over_of st0 = true -> round_over_of st1 = true)
    ∧ (round_over_of st1 = true -> round_over_of st2 = true).
Proof.
  intros (Hok & _)%start_round_round_ok acts1 acts2.
  destruct (run_round_ok acts1 chat0 st0 Hok)
    as (chat1 & st1 & Hrun1 & Hok1 & Hle1 & Hov1).
  destruct (run_round_ok acts2 chat1 st1 Hok1)
    as (chat2 & st2 & Hrun2 & Hok2 & Hle2 & Hov2).
  exists chat1, st1, chat2, st2. rewrite run_app, Hrun1, bind_Ok.
  unfold MAX_CLUES in *. split_and!; auto; lia.
Qed.

Lemma round_invariants_witness :
  exists chat1 st1 chat2 st2,
    run [Hint; Guess (VStr "Pug")]
      ([as_msg "assistant"
          ("Here's your first clue:" +:+ Str.nl +:+ Str.nl
           +:+ "**Clue 1:** This species was bred in England, unknown during the 1830s for use(s) like hunting"
           +:+ Str.nl +:+ Str.nl)], beagle_round) = Ok (chat1, st1)
    ∧ run ([Hint; Guess (VStr "Pug")] ++ [Hint; Hint; GiveUp; Hint])
        ([as_msg "assistant"
            ("Here's your first clue:" +:+ Str.nl +:+ Str.nl
             +:+ "**Clue 1:** This species was bred in England, unknown during the 1830s for use(s) like hunting"
             +:+ Str.nl +:+ Str.nl)], beagle_round) = Ok (chat2, st2)
    ∧ run [Hint; Hint; GiveUp; Hint] (chat1, st1) = Ok (chat2, st2)
    ∧ clue_index_of beagle_round <= clue_index_of st1
    ∧ clue_index_of st1 <= clue_index_of st2
    ∧ clue_index_of st2 <= 3
    ∧ (round_over_of beagle_round = true -> round_over_of st1 = true)
    ∧ (round_over_of st1 = true -> round_over_of st2 = true).
Proof.
  apply (round_invariants kennel_decks "Dogs" None first_draw beagle_round _
           ["Beagle"; "Pug"; "Akita"] (mkRng (fun _ => O) 6)).
  vm_compute. reflexivity.
Defined.

(** ** The options of a round *)

Lemma count_same_name_options correct distractors opts :
  opts ≡ₚ correct :: distractors ->
  Forall (fun d => Str.nonempty d ∧ ¬ same_name d correct) distractors ->
  count_same_name correct opts = 1%nat
  ∧ (forall o, o ∈ opts -> same_name o correct -> o = correct).
Proof.
  intros Hperm Hall. unfold count_same_name. split.
  - rewrite Hperm, filter_cons_True by done. cbn [length]. f_equal.
    clear Hperm. induction Hall as [|d ds [_ Hd] _ IH]; [done |].
    by rewrite filter_cons_False.
  - intros o Ho Hsame. rewrite Hperm in Ho.
    apply elem_of_cons in Ho as [-> | Ho]; [done |].
    rewrite Forall_forall in Hall. by destruct (Hall o Ho).
Qed.

(** C1, as amended: the options of a started round hold the answer as
    [start_round] derived it, and it is their only member of that name
    up to case; the others are distractors drawn at different positions
    from the candidates - the non-missing, non-empty answer cells of
    the category that do not match the answer up to case - so that none
    of them matches the answer; the length is [min(4, 1 + number of
    candidates)], counted with repetition; and when the candidates are
    pairwise different, the distractors are distinct and the length is
    [min(4, 1 + number of distinct candidates)]. *)
Theorem start_round_options DECKS cat prior g st chat opts g2 :
  start_round DECKS cat prior g = Ok (st, chat, opts, g2) ->
  exists df col cells correct distractors,
    DECKS !! cat = Some df
    ∧ ANSWER_FIELD !! cat = Some col
    ∧ df_column df col = Ok cells
    ∧ answer st = Some correct
    ∧ options st = Some opts
    ∧ opts ≡ₚ correct :: distractors
    ∧ count_same_name correct opts = 1%nat
    ∧ (forall o, o ∈ opts -> same_name o correct -> o = correct)
    ∧ distractors ⊆+ candidates_of cells correct
    ∧ Forall (fun d => Str.nonempty d ∧ ¬ same_name d correct) distractors
    ∧ length opts = (4 `min` (1 + length (candidates_of cells correct)))%nat
    ∧ (NoDup (candidates_of cells correct) ->
       NoDup distractors
       ∧ length opts
         = (4 `min` (1 + length (distinct_candidates cells correct)))%nat).
Proof.
  intros (r & g1 & col & clue & _ & Hcol & Hopts & _ & ->)%start_round_inv.
  apply make_options_spec
    in Hopts as (df & col' & cells & distractors & Hdf & Hcol' & Hcells
                 & Hperm & Hsub & Hlen).
  assert (col' = col) as -> by congruence.
  set (correct := safe_str (row_get r col (VStr ""))) in *.
  assert (Hall : Forall (fun d => Str.nonempty d ∧ ¬ same_name d correct)
                   distractors)
    by (eapply submseteq_Forall; [done | apply candidates_of_Forall]).
  destruct (count_same_name_options correct distractors opts Hperm Hall)
    as [Hone Honly].
  assert (Hlength :
    length opts = (4 `min` (1 + length (candidates_of cells correct)))%nat)
    by (rewrite Hperm; cbn [length]; lia).
  exists df, col, cells, correct, distractors. split_and!; try done.
  intros Hnodup. split; [by eapply submseteq_NoDup |].
  unfold distinct_candidates. by rewrite remove_dups_NoDup.
Qed.

Lemma start_round_options_witness :
  exists df col cells correct distractors,
    kennel_decks !! "Dogs" = Some df
    ∧ ANSWER_FIELD !! "Dogs" = Some col
    ∧ df_column df col = Ok cells
    ∧ answer beagle_round = Some correct
    ∧ options beagle_round = Some ["Beagle"; "Pug"; "Akita"]
    ∧ ["Beagle"; "Pug"; "Akita"] ≡ₚ correct :: distractors
    ∧ count_same_name correct ["Beagle"; "Pug"; "Akita"] = 1%nat
    ∧ (forall o, o ∈ ["Beagle"; "Pug"; "Akita"] -> same_name o correct -> o = correct)
    ∧ distractors ⊆+ candidates_of cells correct
    ∧ Forall (fun d => Str.nonempty d ∧ ¬ same_name d correct) distractors
    ∧ length ["Beagle"; "Pug"; "Akita"]
      = (4 `min` (1 + length (candidates_of cells correct)))%nat
    ∧ (NoDup (candidates_of cells correct) ->
       NoDup distractors
       ∧ length ["Beagle"; "Pug"; "Akita"]
         = (4 `min` (1 + length (distinct_candidates cells correct)))%nat).
Proof.
  apply (start_round_options kennel_decks "Dogs" None first_draw beagle_round
           [as_msg "assistant"
              ("Here's your first clue:" +:+ Str.nl +:+ Str.nl
               +:+ "**Clue 1:** This species was bred in England, unknown during the 1830s for use(s) like hunting"
               +:+ Str.nl +:+ Str.nl)]
           ["Beagle"; "Pug"; "Akita"] (mkRng (fun _ => O) 6)).
  vm_compute. reflexivity.
Defined.

(** C1, as stated, fails on a sheet that lists a breed twice: the
    round for Akita gets both Pug cells as distractors, so the options
    are three where one distinct candidate would give two, and the
    distractors are not distinct. *)
Lemma twin_distractors :
  (started (start_round twins_decks "Dogs" None first_draw) ≫= answer)
  = Some "Akita"
  ∧ (started (start_round twins_decks "Dogs" None first_draw) ≫= options)
    = Some ["Akita"; "Pug"; "Pug"]
  ∧ df_column twins "Breed" = Ok [VStr "Akita"; VStr "Pug"; VStr "Pug"]
  ∧ distinct_candidates [VStr "Akita"; VStr "Pug"; VStr "Pug"] "Akita" = ["Pug"]
  ∧ length ["Akita"; "Pug"; "Pug"] ≠ (4 `min` (1 + length ["Pug"]))%nat
  ∧ ¬ NoDup ["Pug"; "Pug"].
Proof.
  split_and!; try by vm_compute.
  intros Hnodup. apply NoDup_cons in Hnodup as [Hnotin _].
  apply Hnotin. by left.
Qed.

(** ** The row of a round *)

(** Whatever row [pick_round_row] returns is a record of the sheet
    whose answer cell is not missing. *)
Lemma pick_round_row_sound DECKS cat g r g1 :
  pick_round_row DECKS cat g = Ok (r, g1) ->
  exists df col r0,
    DECKS !! cat = Some df ∧ ANSWER_FIELD !! cat = Some col
    ∧ r0 ∈ records df ∧ isna (cell_at r0 col) = false
    ∧ r = to_dict df r0.
Proof.
  unfold pick_round_row. intros H.
  apply bind_Ok_inv in H as (df & Hdf%dict_item_Ok & H).
  apply bind_Ok_inv in H as (col & Hcol%dict_item_Ok & H).
  apply bind_Ok_inv in H as (df1 & Hdrop & H).
  unfold df_dropna in Hdrop. case_decide; [| done]. injection Hdrop as <-.
  unfold df_sample_one in H. cbn [records columns] in H.
  destruct (randbelow _ g) as [j g'].
  destruct (_ !! j) as [r0|] eqn:Hj; [| done]. injection H as <- <-.
  apply list_elem_of_lookup_2, list_elem_of_filter in Hj as [Hna Hin].
  by exists df, col, r0.
Qed.

(** Every record of the sheet whose answer cell is not missing is the
    row of the round for some run of the generator. *)
Lemma pick_round_row_complete DECKS cat df col r0 :
  DECKS !! cat = Some df -> ANSWER_FIELD !! cat = Some col ->
  col ∈ columns df ->
  r0 ∈ records df -> isna (cell_at r0 col) = false ->
  exists g g1, pick_round_row DECKS cat g = Ok (to_dict df r0, g1).
Proof.
  intros Hdf%dict_item_Ok Hcol%dict_item_Ok Hincol Hin Hna.
  assert (Hkept : r0 ∈ filter (fun r => isna (cell_at r col) = false) (records df))
    by (by apply list_elem_of_filter).
  apply list_elem_of_lookup_1 in Hkept as [j Hj].
  pose proof (lookup_lt_Some _ _ _ Hj) as Hlt.
  exists (mkRng (fun _ => j) O). eexists.
  unfold pick_round_row. rewrite Hdf, bind_Ok, Hcol, bind_Ok.
  unfold df_dropna. rewrite decide_True by done. rewrite bind_Ok.
  unfold df_sample_one, randbelow. cbn [records columns draws cursor].
  rewrite Nat.mod_small by done. by rewrite Hj.
Qed.

(** A blank answer cell is not a missing one: it is kept, and the
    answer derived from it is the empty string. *)
Lemma blank_cell_kept s :
  Str.all_space s = true ->
  isna (VStr s) = false ∧ safe_str (VStr s) = "".
Proof.
  intros Hs. split; [done |]. cbn. unfold Str.strip.
  by rewrite lstrip_all_space.
Qed.

(** C5 at the failing input: on the sheet whose only answer cell holds
    a space, [start_round] goes through, whatever the generator draws,
    and the answer of the round is the empty string; the one option is
    the empty string too, which [submit_guess] turns away. *)
Theorem blank_answer_round g :
  cell_at {[ "Breed" := VStr " "; "Color" := VStr "black" ]} "Breed" = VStr " "
  ∧ started (start_round blank_decks "Dogs" None first_draw) = Some blank_round
  ∧ (started (start_round blank_decks "Dogs" None g) ≫= answer) = Some ""
  ∧ (started (start_round blank_decks "Dogs" None g) ≫= options) = Some [""]
  ∧ submit_guess (VStr "") None blank_round
    = Ok ([as_msg "assistant" msg_choose_option], blank_round, no_updates).
Proof.
  split; [by vm_compute |]. split; [by vm_compute |].
  assert (Hrow : exists g1,
    pick_round_row blank_decks "Dogs" g
    = Ok ({[ "Breed" := VStr " "; "Color" := VStr "black" ]}, g1)).
  { eexists. unfold pick_round_row.
    change (dict_item blank_decks "Dogs") with (Ok blank).
    change (dict_item ANSWER_FIELD "Dogs") with (Ok "Breed").
    rewrite !bind_Ok.
    change (df_dropna blank "Breed") with (Ok blank). rewrite bind_Ok.
    unfold df_sample_one, randbelow. cbn [records blank length].
    rewrite Nat.mod_1_r. cbn [lookup list_lookup].
    change (to_dict blank {[ "Breed" := VStr " "; "Color" := VStr "black" ]})
      with ({[ "Breed" := VStr " "; "Color" := VStr "black" ]} : Row).
    reflexivity. }
  destruct Hrow as [g1 Hrow].
  assert (Hopts : exists g2,
    make_options blank_decks "Dogs" "" 4 g1 = Ok ([""], g2)).
  { eexists. unfold make_options.
    change (dict_item blank_decks "Dogs") with (Ok blank).
    change (dict_item ANSWER_FIELD "Dogs") with (Ok "Breed").
    rewrite !bind_Ok.
    change (df_column blank "Breed") with (Ok [VStr " "]). rewrite bind_Ok.
    change (candidates_of [VStr " "] "") with (@nil string).
    change (random_sample [] _ g1) with (Ok (@nil string, g1)).
    rewrite bind_Ok. unfold random_shuffle. cbn [length draw_many].
    unfold randbelow. by rewrite Nat.mod_1_r. }
  destruct Hopts as [g2 Hopts].
  assert (Hstart : exists chat st,
    start_round blank_decks "Dogs" None g = Ok (st, chat, [""], g2)
    ∧ answer st = Some "").
  { unfold start_round. rewrite Hrow, bind_Ok.
    change (dict_item ANSWER_FIELD "Dogs") with (Ok "Breed"). rewrite bind_Ok.
    change (safe_str (row_get {[ "Breed" := VStr " "; "Color" := VStr "black" ]}
                        "Breed" (VStr ""))) with "".
    rewrite Hopts, bind_Ok.
    unfold next_clue_text. cbn [clue_index].
    change (default 0 (Some 0)) with 0.
    rewrite decide_False by (unfold MAX_CLUES; lia).
    match goal with
    | |- context [build_composite_clue ?s ?n] =>
        destruct (build_composite_clue_total s "Dogs"
                    {[ "Breed" := VStr " "; "Color" := VStr "black" ]} n)
          as [text ->]; [done | done |]
    end.
    rewrite !bind_Ok. eexists _, _. split; reflexivity. }
  destruct Hstart as (chat & st & Hstart & Hans).
  rewrite Hstart. cbn [started mbind option_bind].
  split; [done |]. split; [| done].
  by apply start_round_inv in Hstart as (? & ? & ? & ? & _ & _ & _ & _ & ->).
Qed.

(** ** Placeholders in clues *)

(** A slot whose field is not a key of the row gets the placeholder. *)
Lemma slot_absent (r : Row) key placeholder :
  r !! key = None ->
  safe_str (row_get r key (VStr placeholder)) = Str.strip placeholder.
Proof. intros H. unfold row_get. by rewrite H. Qed.

(** A slot whose field is a key of the row with a missing or blank
    value gets the empty string: the placeholder is not used. *)
Lemma slot_missing (r : Row) key placeholder v :
  r !! key = Some v ->
  isna v = true ∨ (exists s, v = VStr s ∧ Str.all_space s = true) ->
  safe_str (row_get r key (VStr placeholder)) = "".
Proof.
  intros H Hv. unfold row_get. rewrite H. cbn [default from_option id].
  destruct Hv as [Hna | (s & -> & Hs)].
  - by destruct v.
  - by apply blank_cell_kept.
Qed.

(** C4 at the failing input: the Beagle round that [start_round]
    returns has a row in which Color is a key with a missing value;
    clue 2 ends in an empty slot.  The placeholder only shows when the
    row has no Color key at all. *)
Theorem missing_colour_left_blank :
  started (start_round kennel_decks "Dogs" None first_draw) = Some beagle_round
  ∧ beagle_row !! "Color" = Some VNaN
  ∧ build_composite_clue beagle_round 2
    = Ok "**Clue 2:** This species is often found in colors: "
  ∧ build_composite_clue
      (mkState (Some "Dogs") (Some (<[ "Color" := VStr "  " ]> beagle_row))
         None None None None None None None) 2
    = Ok "**Clue 2:** This species is often found in colors: "
  ∧ build_composite_clue
      (mkState (Some "Dogs") (Some (delete "Color" beagle_row))
         None None None None None None None) 2
    = Ok "**Clue 2:** This species is often found in colors: various colors".
Proof. split_and!; by vm_compute. Qed.


(** * Further properties of the game *)

(** ** The scoring table *)

(** X1: The points are between 1 and 3, and more clues never earn more. *)
Theorem points_for_clues_used_antitone a b :
  1 <= points_for_clues_used a <= 3
  ∧ (a <= b -> points_for_clues_used b <= points_for_clues_used a).
Proof. unfold points_for_clues_used. repeat case_decide; lia. Qed.

(** ** [safe_str] normalises *)

Lemma rstrip_idemp s : Str.rstrip (Str.rstrip s) = Str.rstrip s.
Proof.
  induction s as [|c s IH]; [done |]. cbn [Str.rstrip].
  destruct (Str.rstrip s) as [|d r] eqn:Hr.
  - destruct (Str.is_space c) eqn:Hc; [done |]. cbn. by rewrite Hc.
  - cbn [Str.rstrip]. cbn [Str.rstrip] in IH. by rewrite IH.
Qed.

(** Stripping on the right keeps a first character that is not white
    space. *)
Lemma lstrip_rstrip_lstrip s :
  Str.lstrip (Str.rstrip (Str.lstrip s)) = Str.rstrip (Str.lstrip s).
Proof.
  induction s as [|c s IH]; [done |]. cbn [Str.lstrip].
  destruct (Str.is_space c) eqn:Hc; [done |]. cbn [Str.rstrip].
  destruct (Str.rstrip s); rewrite ?Hc; cbn [Str.lstrip]; by rewrite Hc.
Qed.

Lemma strip_idemp s : Str.strip (Str.strip s) = Str.strip s.
Proof. unfold Str.strip. by rewrite lstrip_rstrip_lstrip, rstrip_idemp. Qed.

Lemma lstrip_length s : (String.length (Str.lstrip s) <= String.length s)%nat.
Proof.
  induction s as [|c s IH]; cbn; [done |]. destruct (Str.is_space c); cbn; lia.
Qed.

Lemma rstrip_length s : (String.length (Str.rstrip s) <= String.length s)%nat.
Proof.
  induction s as [|c s IH]; cbn; [done |].
  destruct (Str.rstrip s); [destruct (Str.is_space c) |]; cbn in *; lia.
Qed.

Lemma strip_length s : (String.length (Str.strip s) <= String.length s)%nat.
Proof.
  unfold Str.strip. pose proof (rstrip_length (Str.lstrip s)).
  pose proof (lstrip_length s). lia.
Qed.

Lemma string_app_length s1 s2 :
  String.length (s1 +:+ s2) = (String.length s1 + String.length s2)%nat.
Proof.
  induction s1 as [|c s1 IH]; [done |].
  change (String c s1 +:+ s2) with (String c (s1 +:+ s2)).
  cbn [String.length]. by rewrite IH.
Qed.

(** X2: What [safe_str] returns is already normalised: a second pass
    changes nothing, and the text neither begins nor ends with white
    space. *)
Theorem safe_str_normal x :
  safe_str (VStr (safe_str x)) = safe_str x
  ∧ (forall ws rest, ws ≠ "" -> Str.all_space ws = true ->
       safe_str x ≠ ws +:+ rest ∧ safe_str x ≠ rest +:+ ws).
Proof.
  assert (Hstrip : forall s ws rest, ws ≠ "" -> Str.all_space ws = true ->
            Str.strip s ≠ ws +:+ rest ∧ Str.strip s ≠ rest +:+ ws).
  { intros s ws rest Hne Hws.
    assert (0 < String.length ws)%nat by (destruct ws; [done | cbn; lia]).
    split; intros Heq.
    - pose proof (strip_idemp s) as Hid. rewrite Heq in Hid.
      unfold Str.strip in Hid at 1. rewrite lstrip_space_app in Hid by done.
      fold (Str.strip rest) in Hid.
      pose proof (strip_length rest) as Hlen. rewrite Hid in Hlen.
      rewrite string_app_length in Hlen. lia.
    - pose proof (strip_idemp s) as Hid. rewrite Heq in Hid.
      rewrite strip_app_space in Hid by done.
      pose proof (strip_length rest) as Hlen. rewrite Hid in Hlen.
      rewrite string_app_length in Hlen. lia. }
  destruct x as [| |s|z]; cbn [safe_str isna py_str].
  - split; [done |]. intros ws rest Hne _. split; by destruct ws, rest.
  - split; [done |]. intros ws rest Hne _. split; by destruct ws, rest.
  - split; [apply strip_idemp | apply Hstrip].
  - split; [apply strip_idemp | apply Hstrip].
Qed.

(** ** Handlers outside a round in play *)

Lemma no_category_inactive st : category st = None -> is_game_active st = false.
Proof.
  intros H. unfold is_game_active. rewrite H. cbn [has_key].
  by rewrite andb_false_r.
Qed.

(** X3: Without a category there is no round: each handler answers with
    its pick-a-category message ([give_up] with a wording of its own)
    and hands the state back untouched, whatever else the state
    holds. *)
Theorem no_round_guidance st chat selected :
  category st = None ->
  give_hint chat st
  = Ok (or_nil chat ++ [as_msg "assistant" msg_pick_category], st)
  ∧ submit_guess selected chat st
    = Ok (or_nil chat ++ [as_msg "assistant" msg_pick_category], st, no_updates)
  ∧ giveUp chat st
    = Ok (or_nil chat ++ [as_msg "assistant" msg_pick_category_start], st,
          no_updates).
Proof.
  intros Hcat. pose proof (no_category_inactive st Hcat) as Hact.
  unfold give_hint, submit_guess, giveUp. rewrite Hact, Hcat.
  cbn [negb has_key]. by rewrite orb_true_r.
Qed.

Lemma no_round_guidance_witness :
  give_hint None empty_state
  = Ok (or_nil None ++ [as_msg "assistant" msg_pick_category], empty_state)
  ∧ submit_guess (VStr "Pug") None empty_state
    = Ok (or_nil None ++ [as_msg "assistant" msg_pick_category], empty_state,
          no_updates)
  ∧ giveUp None empty_state
    = Ok (or_nil None ++ [as_msg "assistant" msg_pick_category_start],
          empty_state, no_updates).
Proof. apply (no_round_guidance empty_state None (VStr "Pug")). reflexivity. Defined.

(** X4: A state that passes for a round in play but lacks the answer or the
    row makes the handlers raise [KeyError]: a guess that is not empty
    and a give-up need the answer, a hint needs the row unless the
    clues are out. *)
Theorem partial_state_raises st chat selected :
  is_game_active st = true ->
  (answer st = None -> truthy selected = true ->
     submit_guess selected chat st = Raise KeyError)
  ∧ (answer st = None -> giveUp chat st = Raise KeyError)
  ∧ (row st = None -> clue_index_of st < MAX_CLUES ->
       give_hint chat st = Raise KeyError)
  ∧ (row st = None -> MAX_CLUES <= clue_index_of st ->
       give_hint chat st
       = Ok (or_nil chat ++ [as_msg "assistant" no_more_clues], st)).
Proof.
  intros Hact. pose proof Hact as [[cat Hcat] _]%is_game_active_spec.
  split_and!.
  - intros Hans Htr. unfold submit_guess. by rewrite Hact, Htr, Hans.
  - intros Hans. unfold giveUp. rewrite Hact.
    cbn [negb answer set_streak set_round_over]. by rewrite Hans.
  - intros Hrow Hlt. unfold give_hint, next_clue_text. rewrite Hact.
    fold (clue_index_of st). cbn [negb]. rewrite decide_False by lia.
    unfold build_composite_clue. by rewrite Hcat, Hrow.
  - intros Hrow Hge. unfold give_hint, next_clue_text. rewrite Hact.
    fold (clue_index_of st). cbn [negb]. by rewrite decide_True by lia.
Qed.

Lemma partial_state_raises_witness :
  (answer bare_state = None -> truthy (VStr "Pug") = true ->
     submit_guess (VStr "Pug") None bare_state = Raise KeyError)
  ∧ (answer bare_state = None -> giveUp None bare_state = Raise KeyError)
  ∧ (row bare_state = None -> clue_index_of bare_state < MAX_CLUES ->
       give_hint None bare_state = Raise KeyError)
  ∧ (row bare_state = None -> MAX_CLUES <= clue_index_of bare_state ->
       give_hint None bare_state
       = Ok (or_nil None ++ [as_msg "assistant" no_more_clues], bare_state)).
Proof. apply (partial_state_raises bare_state None (VStr "Pug")). reflexivity. Defined.

(** ** Giving up *)

(** X5: Giving up in a round in play ends it: [round_over] is set, the
    streak falls to 0, the score and the clue counter stay, the chat
    gains the message that names the answer, the image is shown and
    the Hint and Give up buttons are hidden. *)
Theorem giving_up_resolves st chat correct :
  is_game_active st = true -> answer st = Some correct ->
  exists st1,
    giveUp chat st
    = Ok (or_nil chat ++
            [as_msg "assistant"
               ("All good " +:+ em_dash +:+ " the answer was **" +:+ correct
                +:+ "**." +:+ Str.nl +:+ Str.nl
                +:+ "Click **New Round** when you're ready.")],
          st1, mkWidgets (Visible true) (Visible false) (Visible false) NoUpdate)
    ∧ round_over st1 = Some true
    ∧ streak st1 = Some 0
    ∧ score st1 = score st
    ∧ clue_index st1 = clue_index st
    ∧ same_round_data st st1
    ∧ is_game_active st1 = false.
Proof.
  intros Hact Hans. rewrite (giveUp_active chat st correct Hact Hans).
  eexists. split; [reflexivity |]. split_and!; try done.
  by apply round_over_inactive.
Qed.

Lemma giving_up_resolves_witness :
  exists st1,
    giveUp None beagle_round
    = Ok (or_nil None ++
            [as_msg "assistant"
               ("All good " +:+ em_dash +:+ " the answer was **" +:+ "Beagle"
                +:+ "**." +:+ Str.nl +:+ Str.nl
                +:+ "Click **New Round** when you're ready.")],
          st1, mkWidgets (Visible true) (Visible false) (Visible false) NoUpdate)
    ∧ round_over st1 = Some true
    ∧ streak st1 = Some 0
    ∧ score st1 = score beagle_round
    ∧ clue_index st1 = clue_index beagle_round
    ∧ same_round_data beagle_round st1
    ∧ is_game_active st1 = false.
Proof. apply (giving_up_resolves beagle_round None "Beagle"); reflexivity. Defined.

(** ** After the round *)

Lemma step_round_over a chat st cat :
  round_over st = Some true -> category st = Some cat ->
  step a (chat, st) = Ok (chat ++ [as_msg "assistant" msg_round_over], st).
Proof.
  intros Hover Hcat. pose proof (round_over_inactive st Hover) as Hact.
  assert (Hne : dict_nonempty st = true) by (destruct st; cbn in *; by subst).
  destruct a; unfold step, give_hint, submit_guess, giveUp; cbn [fst snd];
    rewrite Hact, Hcat, Hne; reflexivity.
Qed.

(** X6: Once a round with a category is over, whatever the player clicks,
    in whatever order, the state stays as it is; the chat gains the
    round-is-over message once per click. *)
Theorem resolved_round_is_inert acts chat st cat :
  round_over st = Some true -> category st = Some cat ->
  run acts (chat, st)
  = Ok (chat ++ replicate (length acts) (as_msg "assistant" msg_round_over), st).
Proof.
  intros Hover Hcat. revert chat.
  induction acts as [|a acts IH]; intros chat; cbn [length replicate].
  - by rewrite app_nil_r.
  - rewrite run_cons, (step_round_over a chat st cat Hover Hcat), bind_Ok, IH.
    by rewrite <- app_assoc.
Qed.

Lemma resolved_round_is_inert_witness :
  run [Hint; Guess (VStr "Beagle"); GiveUp] ([], set_round_over true beagle_round)
  = Ok ([] ++ replicate (length [Hint; Guess (VStr "Beagle"); GiveUp])
                (as_msg "assistant" msg_round_over),
        set_round_over true beagle_round).
Proof.
  apply (resolved_round_is_inert [Hint; Guess (VStr "Beagle"); GiveUp] []
           (set_round_over true beagle_round) "Dogs"); reflexivity.
Defined.

(** ** What the handlers leave alone *)

(** The shapes a state can take after one click. *)
Lemma step_shapes a chat st chat1 st1 :
  step a (chat, st) = Ok (chat1, st1) ->
  st1 = st
  ∨ (exists v, st1 = set_clue_index v st)
  ∨ st1 = set_streak 0 st
  ∨ (exists k,
       round_over_of st = false
       ∧ st1 = set_round_over true
                 (set_streak k
                    (set_score
                       (score_of st
                        + points_for_clues_used (Z.max 1 (clue_index_of st)))
                       st)))
  ∨ st1 = set_streak 0 (set_round_over true st).
Proof.
  destruct a as [|selected|]; unfold step; cbn [fst snd].
  - unfold give_hint. destruct (is_game_active st); cbn [negb].
    + unfold next_clue_text. case_decide.
      * rewrite bind_Ok. intros [= <- <-]. by left.
      * destruct (build_composite_clue st _) as [text|e]; [| done].
        rewrite !bind_Ok. intros [= <- <-]. right; left. eauto.
    + intros [= <- <-]. by left.
  - unfold submit_guess. destruct (is_game_active st) eqn:Hact; cbn [negb].
    + apply is_game_active_spec in Hact as [_ Hopen].
      destruct (truthy selected); cbn [negb].
      * destruct (answer st) as [correct|]; [| done]. cbn [item].
        rewrite bind_Ok. case_decide; rewrite bind_Ok; intros [= <- <-].
        -- do 3 right. left. eexists. split; [done | reflexivity].
        -- right; right; by left.
      * rewrite bind_Ok. intros [= <- <-]. by left.
    + rewrite bind_Ok. intros [= <- <-]. by left.
  - unfold giveUp. destruct (is_game_active st); cbn [negb].
    + cbn [answer set_streak set_round_over].
      destruct (answer st) as [correct|]; [| done]. cbn [item].
      rewrite !bind_Ok. intros [= <- <-]. by do 4 right.
    + rewrite bind_Ok. intros [= <- <-]. by left.
Qed.

(** X7: No sequence of clicks changes the round's data: the category, the
    row, the answer, the options and the image reference are those the
    round started with. *)
Theorem run_keeps_round_data acts chat st chat1 st1 :
  run acts (chat, st) = Ok (chat1, st1) -> same_round_data st st1.
Proof.
  revert chat st. induction acts as [|a acts IH]; intros chat st.
  - intros [= <- <-]. by unfold same_round_data.
  - rewrite run_cons. intros ([chat2 st2] & Hstep & Hrun)%bind_Ok_inv.
    apply IH in Hrun as (E1 & E2 & E3 & E4 & E5).
    apply step_shapes in Hstep
      as [-> | [[v ->] | [-> | [(k & _ & ->) | ->]]]];
      unfold same_round_data; by rewrite E1, E2, E3, E4, E5.
Qed.

Lemma run_keeps_round_data_witness :
  same_round_data beagle_round
    (set_round_over true
       (set_streak 1 (set_score 2 (set_clue_index 2 beagle_round)))).
Proof.
  apply (run_keeps_round_data [Hint; Guess (VStr "beagle"); Hint] []
           beagle_round
           [as_msg "assistant"
              "**Clue 2:** This species is often found in colors: ";
            as_msg "user" "My guess: beagle";
            as_msg "assistant"
              (check_mark +:+ " Correct! **Beagle**" +:+ Str.nl +:+ Str.nl
               +:+ "Points: **+2** (you used 2 clue(s))" +:+ Str.nl +:+ Str.nl
               +:+ "Click **New Round** to play again.");
            as_msg "assistant" msg_round_over]).
  by vm_compute.
Defined.

(** ** One award per round *)

Lemma round_over_of_true st : round_over_of st = true <-> round_over st = Some true.
Proof. unfold round_over_of. destruct (round_over st) as [[]|]; cbn; split; congruence. Qed.

Lemma points_for_clues_used_range clues_used :
  1 <= points_for_clues_used clues_used <= 3.
Proof. unfold points_for_clues_used. repeat case_decide; lia. Qed.

(** X8: The score never goes down, a round adds at most 3 points to it,
    and it only moves when the round ends: whatever is clicked after
    [start_round], and however often. *)
Theorem one_award_per_round DECKS cat prior g st0 chat0 opts g2 acts :
  start_round DECKS cat prior g = Ok (st0, chat0, opts, g2) ->
  exists chat st,
    run acts (chat0, st0) = Ok (chat, st)
    ∧ score_of st0 <= score_of st <= score_of st0 + 3
    ∧ (score_of st ≠ score_of st0 -> round_over_of st = true).
Proof.
  intros (Hok & _)%start_round_round_ok.
  assert (Hgen : forall acts chat st, round_ok st ->
    (round_over_of st = false ∧ score_of st = score_of st0)
    ∨ (round_over_of st = true
       ∧ score_of st0 <= score_of st <= score_of st0 + 3) ->
    exists chat1 st1,
      run acts (chat, st) = Ok (chat1, st1)
      ∧ ((round_over_of st1 = false ∧ score_of st1 = score_of st0)
         ∨ (round_over_of st1 = true
            ∧ score_of st0 <= score_of st1 <= score_of st0 + 3))).
  { clear acts. induction acts as [|a acts IH]; intros chat st Hround Hinv.
    - by exists chat, st.
    - destruct (step_round_ok a chat st Hround)
        as (chat1 & st1 & Hstep & Hround1 & _ & _).
      rewrite run_cons, Hstep, bind_Ok. apply IH; [done |].
      destruct Hinv as [[Hopen Hscore] | [Hover Hscore]].
      + apply step_shapes in Hstep
          as [-> | [[v ->] | [-> | [(k & _ & ->) | ->]]]]; auto.
        * right. split; [done |].
          change (score_of (set_round_over true (set_streak k (set_score ?s st))))
            with s.
          pose proof (points_for_clues_used_range (Z.max 1 (clue_index_of st))).
          lia.
        * right. split; [done |].
          change (score_of (set_streak 0 (set_round_over true st)))
            with (score_of st).
          lia.
      + destruct Hround as ([c Hc] & _).
        apply round_over_of_true in Hover as Hover'.
        rewrite (step_round_over a chat st c Hover' Hc) in Hstep.
        injection Hstep as <- <-. by right. }
  pose proof Hok as Hround.
  destruct (Hgen acts chat0 st0 Hround) as (chat & st & Hrun & Hinv).
  { destruct (round_over_of st0) eqn:E; [right | left]; split; auto; lia. }
  exists chat, st. split; [done |].
  destruct Hinv as [[Hopen ->] | [Hover Hscore]]; split; try lia; try done.
Qed.

Lemma one_award_per_round_witness :
  exists chat st,
    run [Guess (VStr "Pug"); Hint; Guess (VStr "BEAGLE"); Guess (VStr "Beagle")]
      ([as_msg "assistant"
          ("Here's your first clue:" +:+ Str.nl +:+ Str.nl
           +:+ "**Clue 1:** This species was bred in England, unknown during the 1830s for use(s) like hunting"
           +:+ Str.nl +:+ Str.nl)], beagle_round) = Ok (chat, st)
    ∧ score_of beagle_round <= score_of st <= score_of beagle_round + 3
    ∧ (score_of st ≠ score_of beagle_round -> round_over_of st = true).
Proof.
  apply (one_award_per_round kennel_decks "Dogs" None first_draw beagle_round _
           ["Beagle"; "Pug"; "Akita"] (mkRng (fun _ => O) 6)).
  vm_compute. reflexivity.
Defined.

(** ** Hints, misses and the points of the final guess *)

Lemma count_hints_nonneg acts : 0 <= count_hints acts.
Proof. induction acts as [|[| |] acts IH]; cbn [count_hints]; lia. Qed.

Lemma is_game_active_set_streak v st :
  is_game_active (set_streak v st) = is_game_active st.
Proof. apply Bool.eq_true_iff_eq. by rewrite !is_game_active_spec. Qed.

(** Hints and misses keep the round in play: the score stays, and the
    clue counter has moved by the number of hints, up to the cap. *)
Lemma unresolving_run correct acts chat st :
  round_ok st -> is_game_active st = true -> answer st = Some correct ->
  Forall (unresolving correct) acts ->
  exists chat1 st1,
    run acts (chat, st) = Ok (chat1, st1)
    ∧ round_ok st1 ∧ is_game_active st1 = true
    ∧ answer st1 = Some correct ∧ score st1 = score st
    ∧ clue_index_of st1 = Z.min (clue_index_of st + count_hints acts) MAX_CLUES.
Proof.
  intros Hok Hact Hans Hall. revert chat st Hok Hact Hans.
  induction Hall as [|a acts Ha _ IH]; intros chat st Hok Hact Hans.
  - exists chat, st. destruct Hok as (? & ? & ? & ?). cbn [count_hints].
    split_and!; try done. unfold MAX_CLUES in *. lia.
  - pose proof (count_hints_nonneg acts) as Hnn.
    pose proof Hok as ([cat Hcat] & [r Hrow] & _ & Hidx).
    destruct a as [|selected|]; [| | done]; rewrite run_cons.
    + destruct (decide (clue_index_of st < MAX_CLUES)) as [Hlt | Hge].
      * destruct (build_composite_clue_total st cat r (clue_index_of st + 1))
          as [text Htext]; [done.. |].
        rewrite (hint_step_clue chat st text Hact Hlt Htext), bind_Ok.
        destruct (IH (chat ++ [as_msg "assistant" text])
                     (set_clue_index (clue_index_of st + 1) st))
          as (chat1 & st1 & Hrun & Hok1 & Hact1 & Hans1 & Hsc1 & Hci1).
        { apply (round_ok_frame st); try done. unfold MAX_CLUES in *. cbn. lia. }
        { by rewrite is_game_active_set_clue_index. }
        { done. }
        exists chat1, st1. split_and!; try done.
        rewrite Hci1. cbn [count_hints].
        change (clue_index_of (set_clue_index (clue_index_of st + 1) st))
          with (clue_index_of st + 1). lia.
      * rewrite (hint_step_exhausted chat st Hact) by lia. rewrite bind_Ok.
        destruct (IH (chat ++ [as_msg "assistant" no_more_clues]) st Hok Hact Hans)
          as (chat1 & st1 & Hrun & Hok1 & Hact1 & Hans1 & Hsc1 & Hci1).
        exists chat1, st1. split_and!; try done.
        rewrite Hci1. cbn [count_hints]. unfold MAX_CLUES in *. lia.
    + cbn [count_hints]. unfold step. cbn [fst snd].
      destruct (truthy selected) eqn:Htr.
      * cbn [unresolving] in Ha. destruct Ha as [Ha | Ha]; [congruence |].
        rewrite (submit_guess_active _ _ _ _ Hact Htr Hans). cbv zeta.
        rewrite decide_False by done. rewrite bind_Ok.
        destruct (IH (or_nil (Some chat)
                        ++ [as_msg "user" ("My guess: " +:+ py_str selected)]
                        ++ [as_msg "assistant" msg_not_quite])
                     (set_streak 0 st))
          as (chat1 & st1 & Hrun & Hok1 & Hact1 & Hans1 & Hsc1 & Hci1).
        { by apply (round_ok_frame st). }
        { by rewrite is_game_active_set_streak. }
        { done. }
        exists chat1, st1. rewrite <- app_assoc. split_and!; done.
      * rewrite (submit_guess_empty _ _ _ Hact Htr), bind_Ok.
        by apply IH.
Qed.

(** X9: After [start_round], the points of the winning guess depend on the
    hints asked for and on nothing else: 3 with no further hint, 2 with
    one, 1 with two or more, however many empty or wrong guesses came
    in between.  The score grows by these points and the round is
    over. *)
Theorem hints_decide_the_points
  DECKS cat prior g st0 chat0 opts g2 correct acts selected :
  start_round DECKS cat prior g = Ok (st0, chat0, opts, g2) ->
  answer st0 = Some correct ->
  Forall (unresolving correct) acts ->
  truthy selected = true -> guess_matches selected correct ->
  exists chat st pts,
    run (acts ++ [Guess selected]) (chat0, st0) = Ok (chat, st)
    ∧ (count_hints acts = 0 -> pts = 3)
    ∧ (count_hints acts = 1 -> pts = 2)
    ∧ (2 <= count_hints acts -> pts = 1)
    ∧ score st = Some (score_of st0 + pts)
    ∧ round_over st = Some true.
Proof.
  intros Hstart Hans Hall Htr Hright.
  apply start_round_round_ok in Hstart as (Hok & Hone & _ & Hact).
  destruct (unresolving_run correct acts chat0 st0 Hok Hact Hans Hall)
    as (chat1 & st1 & Hrun & Hok1 & Hact1 & Hans1 & Hsc1 & Hci1).
  pose proof (count_hints_nonneg acts) as Hnn.
  assert (Hci0 : clue_index_of st0 = 1) by (unfold clue_index_of; by rewrite Hone).
  rewrite run_app, Hrun, bind_Ok, run_cons. unfold step. cbn [fst snd].
  rewrite (submit_guess_active _ _ _ _ Hact1 Htr Hans1). cbv zeta.
  rewrite decide_True by done. rewrite !bind_Ok. cbn [run].
  eexists _, _, (points_for_clues_used (Z.max 1 (clue_index_of st1))).
  split; [reflexivity |].
  rewrite Hci1, Hci0. unfold MAX_CLUES, points_for_clues_used.
  split_and!; try done.
  - intros. repeat case_decide; lia.
  - intros. repeat case_decide; lia.
  - intros. repeat case_decide; lia.
  - cbn. unfold score_of. by rewrite Hsc1.
Qed.

Lemma hints_decide_the_points_witness :
  exists chat st pts,
    run ([Guess (VStr "Pug"); Hint; Guess (VStr ""); Guess (VStr "Akita")]
         ++ [Guess (VStr " beagle")])
      ([as_msg "assistant"
          ("Here's your first clue:" +:+ Str.nl +:+ Str.nl
           +:+ "**Clue 1:** This species was bred in England, unknown during the 1830s for use(s) like hunting"
           +:+ Str.nl +:+ Str.nl)], beagle_round) = Ok (chat, st)
    ∧ (count_hints [Guess (VStr "Pug"); Hint; Guess (VStr ""); Guess (VStr "Akita")] = 0
       -> pts = 3)
    ∧ (count_hints [Guess (VStr "Pug"); Hint; Guess (VStr ""); Guess (VStr "Akita")] = 1
       -> pts = 2)
    ∧ (2 <= count_hints [Guess (VStr "Pug"); Hint; Guess (VStr ""); Guess (VStr "Akita")]
       -> pts = 1)
    ∧ score st = Some (score_of beagle_round + pts)
    ∧ round_over st = Some true.
Proof.
  apply (hints_decide_the_points kennel_decks "Dogs" None first_draw beagle_round
           _ ["Beagle"; "Pug"; "Akita"] (mkRng (fun _ => O) 6) "Beagle").
  - vm_compute. reflexivity.
  - reflexivity.
  - apply Forall_cons. split; [right; by vm_compute |].
    apply Forall_cons. split; [exact I |].
    apply Forall_cons. split; [by left |].
    apply Forall_cons. split; [right; by vm_compute |].
    by apply Forall_nil.
  - reflexivity.
  - reflexivity.
Defined.

(** ** What a new round starts from *)

(** X10: [start_round] keeps the score and the streak of the session (0
    when there is none), resets the round, stores the options it
    returns and the image reference of the row, and opens the chat
    with one message that holds clue 1 of the new round. *)
Theorem start_round_fresh DECKS cat prior g st chat opts g2 :
  start_round DECKS cat prior g = Ok (st, chat, opts, g2) ->
  exists r clue,
    category st = Some cat
    ∧ row st = Some r
    ∧ options st = Some opts
    ∧ clue_index st = Some 1
    ∧ round_over st = Some false
    ∧ score st = Some (default 0 (prior ≫= score))
    ∧ streak st = Some (default 0 (prior ≫= streak))
    ∧ img_url st = Some (get_example_image r)
    ∧ build_composite_clue st 1 = Ok clue
    ∧ chat = [as_msg "assistant"
                ("Here's your first clue:" +:+ Str.nl +:+ Str.nl +:+ clue
                 +:+ Str.nl +:+ Str.nl)].
Proof.
  unfold start_round. intros H.
  apply bind_Ok_inv in H as ([r g1] & Hpick & H).
  apply bind_Ok_inv in H as (col & Hcol & H).
  apply bind_Ok_inv in H as ([opts1 g3] & Hopts & H).
  apply bind_Ok_inv in H as ([clue st1] & Hclue & H).
  injection H as <- <- <- <-.
  unfold next_clue_text in Hclue. cbn [clue_index] in Hclue.
  change (default 0 (Some 0)) with 0 in Hclue.
  rewrite decide_False in Hclue by (unfold MAX_CLUES; lia).
  apply bind_Ok_inv in Hclue as (text & Htext & [= <- <-]).
  exists r, text. by split_and!.
Qed.

Lemma start_round_fresh_witness :
  exists r clue,
    category beagle_round = Some "Dogs"
    ∧ row beagle_round = Some r
    ∧ options beagle_round = Some ["Beagle"; "Pug"; "Akita"]
    ∧ clue_index beagle_round = Some 1
    ∧ round_over beagle_round = Some false
    ∧ score beagle_round = Some (default 0 (None ≫= score))
    ∧ streak beagle_round = Some (default 0 (None ≫= streak))
    ∧ img_url beagle_round = Some (get_example_image r)
    ∧ build_composite_clue beagle_round 1 = Ok clue
    ∧ [as_msg "assistant"
         ("Here's your first clue:" +:+ Str.nl +:+ Str.nl
          +:+ "**Clue 1:** This species was bred in England, unknown during the 1830s for use(s) like hunting"
          +:+ Str.nl +:+ Str.nl)]
      = [as_msg "assistant"
           ("Here's your first clue:" +:+ Str.nl +:+ Str.nl +:+ clue
            +:+ Str.nl +:+ Str.nl)].
Proof.
  apply (start_round_fresh kennel_decks "Dogs" None first_draw beagle_round _
           ["Beagle"; "Pug"; "Akita"] (mkRng (fun _ => O) 6)).
  vm_compute. reflexivity.
Defined.

(** ** When a round can start *)

Lemma to_dict_lookup df r key :
  to_dict df r !! key
  = if decide (key ∈ columns df) then Some (cell_at r key) else None.
Proof.
  unfold to_dict. induction (columns df) as [|c cols IH].
  - rewrite fmap_nil, list_to_map_nil, lookup_empty.
    by rewrite decide_False by apply not_elem_of_nil.
  - rewrite fmap_cons, list_to_map_cons, lookup_insert.
    destruct (decide (c = key)) as [-> | Hne].
    + by rewrite decide_True by (apply elem_of_cons; by left).
    + rewrite IH. destruct (decide (key ∈ cols)).
      * by rewrite decide_True by (apply elem_of_cons; by right).
      * rewrite decide_False; [done |].
        intros [-> | ?]%elem_of_cons; done.
Qed.

Lemma pick_round_row_succeeds DECKS cat df col r0 g :
  DECKS !! cat = Some df -> ANSWER_FIELD !! cat = Some col ->
  col ∈ columns df ->
  r0 ∈ records df -> isna (cell_at r0 col) = false ->
  exists r g1, pick_round_row DECKS cat g = Ok (r, g1).
Proof.
  intros Hdf%dict_item_Ok Hcol%dict_item_Ok Hincol Hin Hna.
  assert (Hkept : r0 ∈ filter (fun r => isna (cell_at r col) = false) (records df))
    by (by apply list_elem_of_filter).
  unfold pick_round_row. rewrite Hdf, bind_Ok, Hcol, bind_Ok.
  unfold df_dropna. rewrite decide_True by done. rewrite bind_Ok.
  unfold df_sample_one. cbn [records columns].
  set (kept := filter _ (records df)) in *.
  pose proof (randbelow_lt (length kept) g) as Hlt.
  destruct (randbelow (length kept) g) as [j g1]. cbn [fst] in Hlt.
  destruct (lookup_lt_is_Some_2 kept j) as [r Hj].
  { apply Hlt. destruct kept; [by apply elem_of_nil in Hkept | cbn; lia]. }
  rewrite Hj. eauto.
Qed.

Lemma make_options_succeeds DECKS cat df col correct n g :
  DECKS !! cat = Some df -> ANSWER_FIELD !! cat = Some col ->
  col ∈ columns df -> 1 <= n ->
  exists opts g2, make_options DECKS cat correct n g = Ok (opts, g2).
Proof.
  intros Hdf%dict_item_Ok Hcol%dict_item_Ok Hincol Hn.
  unfold make_options. rewrite Hdf, bind_Ok, Hcol, bind_Ok.
  unfold df_column. rewrite decide_True by done. rewrite bind_Ok.
  unfold random_sample. rewrite decide_True by lia. rewrite bind_Ok.
  destruct (draw_many _ _ g) as [distractors g1].
  destruct (random_shuffle (correct :: distractors) g1) as [opts g2]. eauto.
Qed.

(** X11: A round starts whenever the category has a sheet and an answer
    column in it and some record of the sheet has an answer that is
    not missing: whatever the session state and the draws are,
    [start_round] returns. *)
Theorem start_round_succeeds DECKS cat df col r0 prior g :
  DECKS !! cat = Some df -> ANSWER_FIELD !! cat = Some col ->
  col ∈ columns df ->
  r0 ∈ records df -> isna (cell_at r0 col) = false ->
  exists st chat opts g2, start_round DECKS cat prior g = Ok (st, chat, opts, g2).
Proof.
  intros Hdf Hcol Hincol Hin Hna.
  destruct (pick_round_row_succeeds DECKS cat df col r0 g Hdf Hcol Hincol Hin Hna)
    as (r & g1 & Hpick).
  unfold start_round. rewrite Hpick, bind_Ok.
  apply dict_item_Ok in Hcol as Hcol'. rewrite Hcol', bind_Ok.
  destruct (make_options_succeeds DECKS cat df col
              (safe_str (row_get r col (VStr ""))) 4 g1 Hdf Hcol Hincol)
    as (opts & g2 & Hopts); [lia |].
  rewrite Hopts, bind_Ok.
  unfold next_clue_text. cbn [clue_index]. change (default 0 (Some 0)) with 0.
  rewrite decide_False by (unfold MAX_CLUES; lia).
  match goal with
  | |- context [build_composite_clue ?s ?n] =>
      destruct (build_composite_clue_total s cat r n) as [text ->]; [done | done |]
  end.
  rewrite !bind_Ok. eauto.
Qed.

Lemma start_round_succeeds_witness :
  exists st chat opts g2,
    start_round kennel_decks "Dogs" None first_draw = Ok (st, chat, opts, g2).
Proof.
  apply (start_round_succeeds kennel_decks "Dogs" kennel "Breed" beagle_row).
  - by vm_compute.
  - by vm_compute.
  - apply elem_of_cons. by left.
  - apply elem_of_cons. by left.
  - by vm_compute.
Defined.

(** X12: A round does not start otherwise: a category without a sheet or
    without an answer field, or a sheet without the answer column,
    raises [KeyError]; a sheet in which every answer is missing raises
    [ValueError]. *)
Theorem start_round_raises DECKS cat prior g :
  (DECKS !! cat = None -> start_round DECKS cat prior g = Raise KeyError)
  ∧ (forall df, DECKS !! cat = Some df -> ANSWER_FIELD !! cat = None ->
       start_round DECKS cat prior g = Raise KeyError)
  ∧ (forall df col, DECKS !! cat = Some df -> ANSWER_FIELD !! cat = Some col ->
       col ∉ columns df -> start_round DECKS cat prior g = Raise KeyError)
  ∧ (forall df col, DECKS !! cat = Some df -> ANSWER_FIELD !! cat = Some col ->
       col ∈ columns df ->
       Forall (fun r => isna (cell_at r col) = true) (records df) ->
       start_round DECKS cat prior g = Raise ValueError).
Proof.
  unfold start_round, pick_round_row, dict_item. split_and!.
  - by intros ->.
  - by intros df -> ->.
  - intros df col -> -> Hcol. cbn. unfold df_dropna. by rewrite decide_False.
  - intros df col -> -> Hcol Hall. cbn. unfold df_dropna.
    rewrite decide_True by done. cbn.
    assert (Hnone : filter (fun r => isna (cell_at r col) = false) (records df) = []).
    { induction Hall as [|r rs Hr _ IH]; [done |].
      rewrite filter_cons_False by congruence. done. }
    unfold df_sample_one. cbn [records]. rewrite Hnone.
    cbn [length]. by destruct (randbelow 0 g).
Qed.

Lemma start_round_raises_witness :
  start_round kennel_decks "Cats" None first_draw = Raise KeyError
  ∧ start_round ({[ "Birds" := kennel ]}) "Birds" None first_draw = Raise KeyError
  ∧ start_round ({[ "Dinosaurs" := kennel ]}) "Dinosaurs" None first_draw
    = Raise KeyError
  ∧ start_round ({[ "Dogs" := mkDataFrame ["Breed"] [ {[ "Breed" := VNaN ]}; ∅ ] ]})
      "Dogs" None first_draw = Raise ValueError.
Proof.
  split_and!.
  - apply (start_round_raises kennel_decks "Cats" None first_draw). by vm_compute.
  - apply (start_round_raises {[ "Birds" := kennel ]} "Birds" None first_draw)
      with (df := kennel); by vm_compute.
  - apply (start_round_raises {[ "Dinosaurs" := kennel ]} "Dinosaurs" None first_draw)
      with (df := kennel) (col := "Common Name"); try by vm_compute.
    unfold kennel. cbn [columns].
    rewrite !not_elem_of_cons. split_and!; try done. apply not_elem_of_nil.
  - apply (start_round_raises
             {[ "Dogs" := mkDataFrame ["Breed"] [ {[ "Breed" := VNaN ]}; ∅ ] ]}
             "Dogs" None first_draw)
      with (df := mkDataFrame ["Breed"] [ {[ "Breed" := VNaN ]}; ∅ ])
           (col := "Breed"); try by vm_compute.
    + apply elem_of_cons. by left.
    + apply Forall_cons. split; [by vm_compute |].
      apply Forall_cons. split; [by vm_compute |]. by apply Forall_nil.
Defined.

(** ** The options, for any number of them *)

(** X13: [make_options] with room for [n_options] choices returns the
    answer and [min(n_options - 1, candidates)] distractors when
    [n_options] is at least 1, and raises [ValueError] when it is 0 or
    negative and the sheet is there. *)
Theorem make_options_size DECKS cat df col cells correct n g :
  DECKS !! cat = Some df -> ANSWER_FIELD !! cat = Some col ->
  df_column df col = Ok cells ->
  (1 <= n ->
   exists opts g2 distractors,
     make_options DECKS cat correct n g = Ok (opts, g2)
     ∧ opts ≡ₚ correct :: distractors
     ∧ distractors ⊆+ candidates_of cells correct
     ∧ Z.of_nat (length opts)
       = Z.min n (1 + Z.of_nat (length (candidates_of cells correct))))
  ∧ (n <= 0 -> make_options DECKS cat correct n g = Raise ValueError).
Proof.
  intros Hdf%dict_item_Ok Hcol%dict_item_Ok Hcells.
  unfold make_options. rewrite Hdf, bind_Ok, Hcol, bind_Ok, Hcells, bind_Ok.
  split.
  - intros Hn.
    destruct (random_sample (candidates_of cells correct)
                (Z.min (n - 1) (Z.of_nat (length (candidates_of cells correct)))) g)
      as [[distractors g1]|e] eqn:Hsample.
    + rewrite bind_Ok.
      apply random_sample_spec in Hsample as [Hsub Hlen].
      pose proof (random_shuffle_Permutation (correct :: distractors) g1) as Hperm.
      destruct (random_shuffle (correct :: distractors) g1) as [opts g2].
      cbn [fst] in Hperm. exists opts, g2, distractors.
      split_and!; try done. rewrite Hperm. cbn [length]. lia.
    + unfold random_sample in Hsample. by rewrite decide_True in Hsample by lia.
  - intros Hn. unfold random_sample. by rewrite decide_False by lia.
Qed.

Lemma make_options_size_witness :
  (1 <= 2 ->
   exists opts g2 distractors,
     make_options kennel_decks "Dogs" "Beagle" 2 first_draw = Ok (opts, g2)
     ∧ opts ≡ₚ "Beagle" :: distractors
     ∧ distractors
       ⊆+ candidates_of [VStr "Beagle"; VStr "Pug"; VStr "Akita"] "Beagle"
     ∧ Z.of_nat (length opts)
       = Z.min 2 (1 + Z.of_nat (length (candidates_of
                                          [VStr "Beagle"; VStr "Pug"; VStr "Akita"]
                                          "Beagle"))))
  ∧ (2 <= 0 -> make_options kennel_decks "Dogs" "Beagle" 2 first_draw
               = Raise ValueError).
Proof.
  apply (make_options_size kennel_decks "Dogs" kennel "Breed"); by vm_compute.
Defined.

(** ** Where the options and the row come from *)

Lemma candidates_of_cells cells correct c :
  c ∈ candidates_of cells correct ->
  exists x, x ∈ cells ∧ isna x = false ∧ c = safe_str x ∧ c ≠ "".
Proof.
  unfold candidates_of, series_dropna.
  intros [[Hne _] Hin]%list_elem_of_filter.
  apply list_elem_of_fmap in Hin as (x & -> & [Hna Hx]%list_elem_of_filter).
  exists x. split_and!; try done. intros E. by rewrite E in Hne.
Qed.

(** X14: Every option of a started round, the answer included, is the
    trimmed text of the answer cell of some record of the category's
    sheet, and that cell is not missing. *)
Theorem options_come_from_the_sheet DECKS cat prior g st chat opts g2 :
  start_round DECKS cat prior g = Ok (st, chat, opts, g2) ->
  exists df col,
    DECKS !! cat = Some df ∧ ANSWER_FIELD !! cat = Some col
    ∧ forall o, o ∈ opts ->
        exists r0, r0 ∈ records df ∧ isna (cell_at r0 col) = false
                   ∧ o = safe_str (cell_at r0 col).
Proof.
  intros (r & g1 & col & clue & Hpick & Hcol & Hopts & _ & _)%start_round_inv.
  apply pick_round_row_sound
    in Hpick as (df & col' & r0 & Hdf & Hcol' & Hin & Hna & ->).
  assert (col' = col) as -> by congruence.
  apply make_options_spec
    in Hopts as (df' & col' & cells & distractors & Hdf' & Hcol'' & Hcells
                 & Hperm & Hsub & _).
  assert (df' = df) as -> by congruence.
  assert (col' = col) as -> by congruence.
  unfold df_column in Hcells. case_decide as Hincol; [| done].
  injection Hcells as <-.
  exists df, col. split_and!; try done.
  intros o Ho. rewrite Hperm in Ho. apply elem_of_cons in Ho as [-> | Ho].
  - exists r0. split_and!; try done. unfold row_get.
    rewrite to_dict_lookup. by rewrite decide_True.
  - apply (elem_of_submseteq _ _ _ Ho) in Hsub.
    apply candidates_of_cells in Hsub as (x & Hx & Hna' & -> & _).
    apply list_elem_of_fmap in Hx as (r1 & -> & Hr1). by exists r1.
Qed.

Lemma options_come_from_the_sheet_witness :
  exists df col,
    kennel_decks !! "Dogs" = Some df ∧ ANSWER_FIELD !! "Dogs" = Some col
    ∧ forall o, o ∈ ["Beagle"; "Pug"; "Akita"] ->
        exists r0, r0 ∈ records df ∧ isna (cell_at r0 col) = false
                   ∧ o = safe_str (cell_at r0 col).
Proof.
  apply (options_come_from_the_sheet kennel_decks "Dogs" None first_draw
           beagle_round
           [as_msg "assistant"
              ("Here's your first clue:" +:+ Str.nl +:+ Str.nl
               +:+ "**Clue 1:** This species was bred in England, unknown during the 1830s for use(s) like hunting"
               +:+ Str.nl +:+ Str.nl)]
           ["Beagle"; "Pug"; "Akita"] (mkRng (fun _ => O) 6)).
  vm_compute. reflexivity.
Defined.

(** X15: The rows that a round can get are the records of the sheet whose
    answer is not missing, each as a dict over the sheet's columns:
    every draw gives one of them, and each of them is given by some
    draw. *)
Theorem pick_round_row_rows DECKS cat df col r :
  DECKS !! cat = Some df -> ANSWER_FIELD !! cat = Some col ->
  col ∈ columns df ->
  (exists g g1, pick_round_row DECKS cat g = Ok (r, g1))
  <-> (exists r0, r0 ∈ records df ∧ isna (cell_at r0 col) = false
                  ∧ r = to_dict df r0).
Proof.
  intros Hdf Hcol Hincol. split.
  - intros (g & g1 & Hpick).
    apply pick_round_row_sound
      in Hpick as (df' & col' & r0 & Hdf' & Hcol' & Hin & Hna & ->).
    assert (df' = df) as -> by congruence.
    assert (col' = col) as -> by congruence. eauto.
  - intros (r0 & Hin & Hna & ->).
    by apply (pick_round_row_complete DECKS cat df col r0).
Qed.

Lemma pick_round_row_rows_witness :
  (exists g g1, pick_round_row kennel_decks "Dogs" g = Ok (beagle_row, g1))
  <-> (exists r0, r0 ∈ records kennel ∧ isna (cell_at r0 "Breed") = false
                  ∧ beagle_row = to_dict kennel r0).
Proof.
  apply (pick_round_row_rows kennel_decks "Dogs" kennel "Breed" beagle_row).
  - by vm_compute.
  - by vm_compute.
  - apply elem_of_cons. by left.
Defined.

(** X16: The row of a started round has the columns of the sheet as its
    keys and no other: reading a column of the sheet never gives the
    default passed to [row.get], it gives the cell, missing or not;
    the default is what is read for any other key. *)
Theorem row_keys_are_the_columns DECKS cat prior g st chat opts g2 :
  start_round DECKS cat prior g = Ok (st, chat, opts, g2) ->
  exists df r0 r,
    DECKS !! cat = Some df ∧ r0 ∈ records df ∧ row st = Some r
    ∧ forall key dflt,
        (key ∈ columns df -> row_get r key dflt = cell_at r0 key)
        ∧ (key ∉ columns df -> row_get r key dflt = dflt).
Proof.
  intros (r & g1 & col & clue & Hpick & Hcol & _ & _ & ->)%start_round_inv.
  apply pick_round_row_sound
    in Hpick as (df & col' & r0 & Hdf & _ & Hin & _ & ->).
  exists df, r0, (to_dict df r0). split_and!; try done.
  intros key dflt. unfold row_get. rewrite to_dict_lookup.
  split; intros Hkey; [by rewrite decide_True | by rewrite decide_False].
Qed.

Lemma row_keys_are_the_columns_witness :
  exists df r0 r,
    kennel_decks !! "Dogs" = Some df ∧ r0 ∈ records df
    ∧ row beagle_round = Some r
    ∧ forall key dflt,
        (key ∈ columns df -> row_get r key dflt = cell_at r0 key)
        ∧ (key ∉ columns df -> row_get r key dflt = dflt).
Proof.
  apply (row_keys_are_the_columns kennel_decks "Dogs" None first_draw
           beagle_round
           [as_msg "assistant"
              ("Here's your first clue:" +:+ Str.nl +:+ Str.nl
               +:+ "**Clue 1:** This species was bred in England, unknown during the 1830s for use(s) like hunting"
               +:+ Str.nl +:+ Str.nl)]
           ["Beagle"; "Pug"; "Akita"] (mkRng (fun _ => O) 6)).
  vm_compute. reflexivity.
Defined.

(** ** The fact card *)

Lemma hints_three chat st c1 c2 c3 :
  is_game_active st = true -> clue_index_of st = 0 ->
  build_composite_clue st 1 = Ok c1 ->
  build_composite_clue st 2 = Ok c2 ->
  build_composite_clue st 3 = Ok c3 ->
  hints 3 (chat, st)
  = Ok (chat ++ [as_msg "assistant" c1; as_msg "assistant" c2;
                 as_msg "assistant" c3], set_clue_index 3 st).
Proof.
  intros Hact Hzero Hc1 Hc2 Hc3. unfold hints. cbn [replicate].
  rewrite run_cons, (hint_step_clue chat st c1 Hact), bind_Ok;
    [| rewrite Hzero; unfold MAX_CLUES; lia | by rewrite Hzero].
  rewrite Hzero.
  rewrite run_cons, (hint_step_clue _ (set_clue_index (0 + 1) st) c2), bind_Ok;
    [| by rewrite is_game_active_set_clue_index | reflexivity | exact Hc2].
  rewrite run_cons, (hint_step_clue _ (set_clue_index 2 st) c3), bind_Ok;
    [| by rewrite is_game_active_set_clue_index | reflexivity | exact Hc3].
  cbn [run]. by rewrite <- !app_assoc.
Qed.

(** X17: The card lists, under its heading and one per line, the three
    clues of the round: the very texts that three hints show in a
    round that has shown none.  It reads the category and the row
    only, so it is the same at any point of the round; without a
    category or a row it raises [KeyError]. *)
Theorem all_clues_card st :
  (forall cat r, category st = Some cat -> row st = Some r ->
     exists c1 c2 c3,
       build_all_clues_md st
       = Ok ("### All Clues" +:+ Str.nl +:+ c1 +:+ Str.nl +:+ c2
             +:+ Str.nl +:+ c3)
       ∧ (forall chat st0,
            same_round_data st st0 -> is_game_active st0 = true ->
            clue_index_of st0 = 0 ->
            hints 3 (chat, st0)
            = Ok (chat ++ [as_msg "assistant" c1; as_msg "assistant" c2;
                           as_msg "assistant" c3], set_clue_index 3 st0)))
  ∧ (forall st1, category st1 = category st -> row st1 = row st ->
       build_all_clues_md st1 = build_all_clues_md st)
  ∧ (category st = None ∨ row st = None ->
       build_all_clues_md st = Raise KeyError).
Proof.
  assert (Hunfold : forall s,
    build_all_clues_md s
    = (c1 ← build_composite_clue s 1; c2 ← build_composite_clue s 2;
       c3 ← build_composite_clue s 3;
       Ok ("### All Clues" +:+ Str.nl +:+ c1 +:+ Str.nl +:+ c2
           +:+ Str.nl +:+ c3))).
  { intros s. unfold build_all_clues_md.
    change (seqZ 0 MAX_CLUES) with [0; 1; 2]. cbn [mapM].
    change (0 + 1) with 1. change (1 + 1) with 2. change (2 + 1) with 3.
    destruct (build_composite_clue s 1) as [c1|]; [| done].
    destruct (build_composite_clue s 2) as [c2|]; [| done].
    by destruct (build_composite_clue s 3) as [c3|]. }
  split_and!.
  - intros cat r Hcat Hrow.
    destruct (build_composite_clue_total st cat r 1 Hcat Hrow) as [c1 Hc1].
    destruct (build_composite_clue_total st cat r 2 Hcat Hrow) as [c2 Hc2].
    destruct (build_composite_clue_total st cat r 3 Hcat Hrow) as [c3 Hc3].
    exists c1, c2, c3. split.
    + by rewrite Hunfold, Hc1, Hc2, Hc3.
    + intros chat st0 (E1 & E2 & _) Hact Hzero.
      apply hints_three; try done.
      * by rewrite (build_composite_clue_frame st0 st).
      * by rewrite (build_composite_clue_frame st0 st).
      * by rewrite (build_composite_clue_frame st0 st).
  - intros st1 E1 E2. rewrite !Hunfold.
    by rewrite !(build_composite_clue_frame st1 st).
  - intros Hmiss. rewrite Hunfold. unfold build_composite_clue.
    destruct Hmiss as [-> | ->]; [done |]. by destruct (category st).
Qed.

(** ** Loading the workbook *)

Lemma answer_field_cases cat col :
  ANSWER_FIELD !! cat = Some col -> col = "Breed" ∨ col = "Common Name".
Proof.
  unfold ANSWER_FIELD. rewrite !lookup_insert.
  repeat case_decide; try (intros [= <-]; by auto).
  intros [_ <-]%lookup_singleton_Some. by right.
Qed.

Lemma cell_at_drop (r : Row) c :
  is_unnamed c = false ->
  cell_at (filter (fun kv : string * cell => is_unnamed kv.1 = false) r) c
  = cell_at r c.
Proof.
  intros Hc. unfold cell_at. destruct (r !! c) as [x|] eqn:Hr.
  - by rewrite (proj2 (map_lookup_filter_Some _ r c x)).
  - rewrite (proj2 (map_lookup_filter_None _ r c)); [done |]. by left.
Qed.

(** X18: Cleaning a sheet drops exactly the columns whose label begins with
    Unnamed, in the records as well; it keeps the number of records,
    every other cell and every answer column, and cleaning twice is
    cleaning once. *)
Theorem drop_unnamed_keeps_the_data df :
  (forall c, c ∈ columns (drop_unnamed df)
             <-> c ∈ columns df ∧ is_unnamed c = false)
  ∧ (forall cat col, ANSWER_FIELD !! cat = Some col ->
       df_column (drop_unnamed df) col = df_column df col)
  ∧ (forall col, is_unnamed col = false ->
       df_column (drop_unnamed df) col = df_column df col)
  ∧ (forall r key, r ∈ records (drop_unnamed df) ->
       is_unnamed key = true -> r !! key = None)
  ∧ length (records (drop_unnamed df)) = length (records df)
  ∧ drop_unnamed (drop_unnamed df) = drop_unnamed df.
Proof.
  assert (Hcol : forall col, is_unnamed col = false ->
            df_column (drop_unnamed df) col = df_column df col).
  { intros col Hcol. unfold df_column, drop_unnamed. cbn [columns records].
    destruct (decide (col ∈ columns df)) as [Hin | Hout].
    - rewrite decide_True by (by apply list_elem_of_filter).
      f_equal. rewrite <- list_fmap_compose. apply list_fmap_ext.
      intros _ r _. by apply cell_at_drop.
    - rewrite decide_False; [done |]. by intros [_ ?]%list_elem_of_filter. }
  split_and!.
  - intros c. unfold drop_unnamed. cbn [columns].
    rewrite list_elem_of_filter. tauto.
  - intros cat col [-> | ->]%answer_field_cases; by apply Hcol.
  - done.
  - intros r key Hr Hkey. unfold drop_unnamed in Hr. cbn [records] in Hr.
    apply list_elem_of_fmap in Hr as (r0 & -> & _).
    apply map_lookup_filter_None. right. intros x _ Hx. cbn [fst] in Hx. congruence.
  - unfold drop_unnamed. cbn [records]. by rewrite length_fmap.
  - unfold drop_unnamed. cbn [columns records]. f_equal.
    + apply list_filter_filter_l. auto.
    + rewrite <- list_fmap_compose. apply list_fmap_ext. intros _ r _. cbn.
      apply map_filter_id. intros i x [_ Hx]%map_lookup_filter_Some. done.
Qed.

Lemma load_decks_ok book dogs cats horses dinos :
  book !! "Dog Breed Identification" = Some dogs ->
  book !! "Cat Breed Identification" = Some cats ->
  book !! "Horse Breed Identification" = Some horses ->
  book !! "Dinosaur Species Identification" = Some dinos ->
  load_decks book
  = Ok (list_to_map [ ("Dogs", drop_unnamed dogs); ("Cats", drop_unnamed cats);
                      ("Horses", drop_unnamed horses);
                      ("Dinosaurs", drop_unnamed dinos) ]).
Proof.
  intros Hd Hc Hh Hn.
  unfold load_decks, SHEETS, _load_and_clean_sheet, read_excel.
  cbn [mapM snd fst]. by rewrite Hd, Hc, Hh, Hn.
Qed.

Lemma load_decks_missing book cat sheet :
  (cat, sheet) ∈ SHEETS -> book !! sheet = None ->
  load_decks book = Raise ValueError.
Proof.
  intros Hin Hnone.
  unfold load_decks, SHEETS, _load_and_clean_sheet, read_excel in *.
  cbn [mapM snd fst].
  repeat (apply elem_of_cons in Hin as [[= -> ->] | Hin];
          [rewrite Hnone; by repeat (destruct (book !! _)) |]).
  by apply elem_of_nil in Hin.
Qed.

(** X19: The decks load when the workbook has the four sheets, and then
    they are the four categories, each with its sheet cleaned; a
    workbook that lacks one of the sheets raises [ValueError]. *)
Theorem load_decks_spec book :
  (forall dogs cats horses dinos,
     book !! "Dog Breed Identification" = Some dogs ->
     book !! "Cat Breed Identification" = Some cats ->
     book !! "Horse Breed Identification" = Some horses ->
     book !! "Dinosaur Species Identification" = Some dinos ->
     exists DECKS,
       load_decks book = Ok DECKS
       ∧ DECKS !! "Dogs" = Some (drop_unnamed dogs)
       ∧ DECKS !! "Cats" = Some (drop_unnamed cats)
       ∧ DECKS !! "Horses" = Some (drop_unnamed horses)
       ∧ DECKS !! "Dinosaurs" = Some (drop_unnamed dinos)
       ∧ (forall cat, is_Some (DECKS !! cat) <-> is_Some (ANSWER_FIELD !! cat)))
  ∧ (forall cat sheet, (cat, sheet) ∈ SHEETS -> book !! sheet = None ->
       load_decks book = Raise ValueError).
Proof.
  split; [| apply load_decks_missing].
  intros dogs cats horses dinos Hd Hc Hh Hn.
  eexists. split; [by apply load_decks_ok |].
  cbn [list_to_map foldr fst snd].
  split_and!; try by (rewrite !lookup_insert; repeat case_decide).
  intros cat. unfold ANSWER_FIELD. rewrite !lookup_insert.
  repeat case_decide; try (split; intros _; by eexists).
  - subst cat. rewrite lookup_singleton_eq. split; intros _; by eexists.
  - rewrite lookup_empty, lookup_singleton_ne by done.
    split; intros [? ?]; done.
Qed.

Lemma load_decks_spec_witness :
  exists DECKS,
    load_decks workbook = Ok DECKS
    ∧ DECKS !! "Dogs"
      = Some (drop_unnamed
                (mkDataFrame ["Breed"; "Unnamed: 1"; "Color"]
                   [ {[ "Breed" := VStr "Pug"; "Unnamed: 1" := VNaN;
                        "Color" := VStr "fawn" ]} ]))
    ∧ DECKS !! "Cats" = Some (drop_unnamed (mkDataFrame ["Breed"] []))
    ∧ DECKS !! "Horses" = Some (drop_unnamed (mkDataFrame ["Breed"] []))
    ∧ DECKS !! "Dinosaurs" = Some (drop_unnamed (mkDataFrame ["Common Name"] []))
    ∧ (forall cat, is_Some (DECKS !! cat) <-> is_Some (ANSWER_FIELD !! cat)).
Proof. apply (proj1 (load_decks_spec workbook)); by vm_compute. Defined.

Lemma all_clues_card_witness :
  exists c1 c2 c3,
    build_all_clues_md beagle_round
    = Ok ("### All Clues" +:+ Str.nl +:+ c1 +:+ Str.nl +:+ c2
          +:+ Str.nl +:+ c3)
    ∧ (forall chat st0,
         same_round_data beagle_round st0 -> is_game_active st0 = true ->
         clue_index_of st0 = 0 ->
         hints 3 (chat, st0)
         = Ok (chat ++ [as_msg "assistant" c1; as_msg "assistant" c2;
                        as_msg "assistant" c3], set_clue_index 3 st0)).
Proof.
  apply (proj1 (all_clues_card beagle_round) "Dogs" beagle_row); reflexivity.
Defined.

(** Every deck that was loaded is a cleaned sheet of the workbook. *)
Lemma load_decks_inv book DECKS cat df :
  load_decks book = Ok DECKS -> DECKS !! cat = Some df ->
  exists sheet raw, (cat, sheet) ∈ SHEETS ∧ book !! sheet = Some raw
                    ∧ df = drop_unnamed raw.
Proof.
  intros Hload Hdf.
  destruct (book !! "Dog Breed Identification") as [dogs|] eqn:Hd;
    [| by rewrite (load_decks_missing book "Dogs" "Dog Breed Identification")
         in Hload by (done || in_sheets)].
  destruct (book !! "Cat Breed Identification") as [cats|] eqn:Hc;
    [| by rewrite (load_decks_missing book "Cats" "Cat Breed Identification")
         in Hload by (done || in_sheets)].
  destruct (book !! "Horse Breed Identification") as [horses|] eqn:Hh;
    [| by rewrite (load_decks_missing book "Horses" "Horse Breed Identification")
         in Hload by (done || in_sheets)].
  destruct (book !! "Dinosaur Species Identification") as [dinos|] eqn:Hn;
    [| by rewrite (load_decks_missing book "Dinosaurs"
                     "Dinosaur Species Identification")
         in Hload by (done || in_sheets)].
  rewrite (load_decks_ok book dogs cats horses dinos Hd Hc Hh Hn) in Hload.
  injection Hload as <-. cbn [list_to_map foldr fst snd] in Hdf.
  rewrite !lookup_insert in Hdf. repeat case_decide; subst.
  - injection Hdf as <-. exists "Dog Breed Identification", dogs.
    split_and!; [in_sheets | done | done].
  - injection Hdf as <-. exists "Cat Breed Identification", cats.
    split_and!; [in_sheets | done | done].
  - injection Hdf as <-. exists "Horse Breed Identification", horses.
    split_and!; [in_sheets | done | done].
  - injection Hdf as <-. exists "Dinosaur Species Identification", dinos.
    split_and!; [in_sheets | done | done].
  - by rewrite lookup_empty in Hdf.
Qed.

(** X20: Rounds played on loaded decks never see an unnamed column: the
    row of a started round has no key that begins with Unnamed. *)
Theorem loaded_rows_have_no_unnamed_key
  book DECKS cat prior g st chat opts g2 r key :
  load_decks book = Ok DECKS ->
  start_round DECKS cat prior g = Ok (st, chat, opts, g2) ->
  row st = Some r -> is_unnamed key = true ->
  r !! key = None.
Proof.
  intros Hload Hstart Hrow Hkey.
  apply start_round_inv
    in Hstart as (r' & g1 & col & clue & Hpick & _ & _ & _ & ->).
  injection Hrow as ->.
  apply pick_round_row_sound
    in Hpick as (df & col' & r0 & Hdf & _ & _ & _ & ->).
  destruct (load_decks_inv book DECKS cat df Hload Hdf)
    as (sheet & raw & _ & _ & ->).
  rewrite to_dict_lookup. rewrite decide_False; [done |].
  unfold drop_unnamed. cbn [columns].
  intros [Hno _]%list_elem_of_filter. congruence.
Qed.

Lemma loaded_rows_have_no_unnamed_key_witness :
  ({[ "Breed" := VStr "Pug"; "Color" := VStr "fawn" ]} : Row) !! "Unnamed: 1"
  = None.
Proof.
  apply (loaded_rows_have_no_unnamed_key workbook
           (list_to_map
              [ ("Dogs", mkDataFrame ["Breed"; "Color"]
                           [ {[ "Breed" := VStr "Pug"; "Color" := VStr "fawn" ]} ]);
                ("Cats", mkDataFrame ["Breed"] []);
                ("Horses", mkDataFrame ["Breed"] []);
                ("Dinosaurs", mkDataFrame ["Common Name"] []) ])
           "Dogs" None first_draw
           (mkState (Some "Dogs")
              (Some {[ "Breed" := VStr "Pug"; "Color" := VStr "fawn" ]})
              (Some "Pug") (Some ["Pug"]) (Some 1) (Some false) (Some 0) (Some 0)
              (Some None))
           [as_msg "assistant"
              ("Here's your first clue:" +:+ Str.nl +:+ Str.nl
               +:+ "**Clue 1:** This species was bred in unknown, unknown during the unknown time for use(s) like various purposes"
               +:+ Str.nl +:+ Str.nl)]
           ["Pug"] (mkRng (fun _ => O) 2)).
  - by vm_compute.
  - vm_compute. reflexivity.
  - reflexivity.
  - reflexivity.
Defined.

(** ** The image of a row *)

(** X21: The image reference of a row, when there is one, is the trimmed,
    non-empty text of its Example Image cell; there is none exactly
    when the row lacks the cell or the cell is missing or blank. *)
Theorem get_example_image_spec (r : Row) :
  (forall url, get_example_image r = Some url ->
     url ≠ ""
     ∧ exists x, r !! IMAGE_FIELD = Some x ∧ isna x = false ∧ url = safe_str x)
  ∧ (get_example_image r = None
     <-> r !! IMAGE_FIELD = None
         ∨ exists x, r !! IMAGE_FIELD = Some x ∧ safe_str x = "").
Proof.
  unfold get_example_image, row_get.
  destruct (r !! IMAGE_FIELD) as [x|] eqn:Hx; cbn [default from_option id].
  - destruct (safe_str x) as [|c s] eqn:Hs; cbn [Str.nonempty].
    + split; [done |]. split; [| done]. intros _. right. eauto.
    + split.
      * intros url [= <-]. split; [done |]. exists x. split_and!; try done.
        destruct x; try done.
      * split; [done |]. intros [? | (y & [= <-] & Hy)]; congruence.
  - cbn. split; [done |]. split; [| done]. intros _. by left.
Qed.
